(** * The repository tree walk of [GitHubRepoExtractor] (src/main.py)

    A shallow embedding of [GitHubRepoExtractor.get_repo_contents],
    [get_file_content] and [extract_frontend_files], and the properties of
    the breadth-first walk that the specification states about them.

    Conventions of the embedding.
    - Python [str] is [string]; [str.split], list indexing and
      [pathlib.Path(...).suffix] are written out in [Module PyStr].
    - A JSON object of a listing is a [gmap string string]: the fields the
      walker reads ([type], [path], [name], [download_url], [message]) are
      strings in the API's schema.  A missing key is kept: it raises
      [KeyError] as in Python.
    - The network is an oracle [remote] that answers a request knowing all
      requests made before it, so that responses may change between calls.
      Every call of [requests.get] is appended to [history].
    - Calls of [st.warning], [st.error] and [st.sidebar.write] are appended to
      [log] as events that name the call site and its arguments.
    - Exceptions are a value [Raise e] of [result]; [try: ... except
      Exception] is [try_except].  What a statement changed before it raised
      stays changed, as for Python's mutable lists and sets.
    - The [while] loop takes fuel; [None] means the fuel ran out. *)

From Stdlib Require Import ZArith String Ascii List Lia.
From stdpp Require Import base decidable option list gmap strings sets fin_sets.

Local Open Scope string_scope.
Local Open Scope list_scope.

(** ** Python string and path operations *)

Module PyStr.

(** [s.split(sep)] for a non-empty [sep]: the first piece and the pieces
    after it.  [skip] counts the characters of a separator occurrence still
    to be dropped. *)
Fixpoint split_from (sep : string) (skip : nat) (s : string) : string * list string :=
  match s with
  | EmptyString => (EmptyString, [])
  | String c s' =>
      match skip with
      | S k => split_from sep k s'
      | O =>
          if String.prefix sep s
          then let '(p, ps) := split_from sep (String.length sep - 1)%nat s' in
               (EmptyString, p :: ps)
          else let '(p, ps) := split_from sep 0 s' in
               (String c p, ps)
      end
  end.

Definition split (sep s : string) : list string :=
  let '(p, ps) := split_from sep 0 s in p :: ps.

(** [l[-1]] on a list of strings that is never empty here. *)
Definition last_piece (l : list string) : string := List.last l EmptyString.

(** [s.rfind('.')], [None] standing for [-1]. *)
Fixpoint rfind_dot (s : string) : option nat :=
  match s with
  | EmptyString => None
  | String c s' =>
      match rfind_dot s' with
      | Some i => Some (S i)
      | None => if Ascii.eqb c "."%char then Some 0 else None
      end
  end.

(** The parts of [PurePosixPath(s)] without its root: the pieces between
    slashes that are neither empty nor a single dot. *)
Definition path_parts (s : string) : list string :=
  List.filter (fun p => negb (String.eqb p EmptyString || String.eqb p "."))
              (split "/" s).

(** [PurePosixPath(s).name]: the last part, or the empty string. *)
Definition path_name (s : string) : string := last_piece (path_parts s).

(** [PurePosixPath(s).suffix] as CPython's pathlib defines it (3.4 to 3.12):
    [i = name.rfind('.')], and [name[i:]] when [0 < i < len(name) - 1]. *)
Definition path_suffix (s : string) : string :=
  let name := path_name s in
  match rfind_dot name with
  | Some i =>
      if Nat.ltb 0 i && Nat.ltb i (String.length name - 1)%nat
      then String.substring i (String.length name - i)%nat name
      else EmptyString
  | None => EmptyString
  end.

End PyStr.

(** ** Data *)

(** The exceptions the walker can meet, by the place that raises them. *)
Inductive exn : Type :=
| IndexError                       (* parts[1] on a list that is too short *)
| KeyError (key : string)          (* item[key] on a dict without key *)
| AttributeError                   (* .get on a JSON array *)
| JSONDecodeError                  (* response.json() on a body that is no JSON *)
| RequestException (msg : string)  (* requests.get itself failed *)
| GitHubAPIError (message : string)    (* main.py line 21 *)
| FetchContentError (status : Z).      (* main.py line 28 *)

Inductive result (A : Type) : Type :=
| Ok (a : A)
| Raise (e : exn).
Arguments Ok {A} a.
Arguments Raise {A} e.

(** One entry of a listing: a JSON object with string fields. *)
Abbreviation item := (gmap string string).

(** The body of a listing response: one object, or an array of objects. *)
Inductive json : Type :=
| JObject (o : item)
| JArray (l : list item).

Record request : Type := mkRequest {
  url : string;
  headers : list (string * string)
}.

(** A response of [requests.get]: [json_body = None] when [.json()] raises. *)
Record response : Type := mkResponse {
  status_code : Z;
  json_body : option json;
  text : string
}.

(** The remote: given the requests already made and the new one, either
    [requests.get] raises or it returns a response. *)
Definition remote : Type := list request -> request -> exn + response.

(** The dict appended to [frontend_files]; its key ['type'] holds the
    extension. *)
Record file_record : Type := mkFile {
  path : string;
  content : string;
  type : string
}.

Inductive event : Type :=
| Found (p : string)                          (* st.sidebar.write, line 73 *)
| CouldntFetch (p : string) (e : exn)         (* st.warning, line 75 *)
| ErrorProcessing (current_path : string) (e : exn)  (* st.warning, line 78 *)
| NoFrontendFiles                             (* st.warning, line 82 *)
| ErrorExtracting (e : exn).                  (* st.error, line 88 *)

Record world : Type := mkWorld {
  log : list event;
  history : list request
}.

(** The locals of [extract_frontend_files] that the loops mutate, with the
    world. *)
Record state : Type := mkState {
  to_process : list (string * list item);
  processed_paths : gset string;
  frontend_files : list file_record;
  io : world
}.

#[global] Instance exn_eq_dec : EqDecision exn.
Proof. solve_decision. Defined.
#[global] Instance request_eq_dec : EqDecision request.
Proof. solve_decision. Defined.
#[global] Instance file_record_eq_dec : EqDecision file_record.
Proof. solve_decision. Defined.

(** ** Exceptions and state *)

Definition M (St A : Type) : Type := St -> result A * St.

Definition ret {St A} (a : A) : M St A := fun s => (Ok a, s).
Definition raise {St A} (e : exn) : M St A := fun s => (Raise e, s).
Definition bind {St A B} (m : M St A) (k : A -> M St B) : M St B :=
  fun s => match m s with
           | (Ok a, s') => k a s'
           | (Raise e, s') => (Raise e, s')
           end.
Definition try_except {St A} (m : M St A) (handler : exn -> M St A) : M St A :=
  fun s => match m s with
           | (Ok a, s') => (Ok a, s')
           | (Raise e, s') => handler e s'
           end.

#[global] Instance M_ret {St} : MRet (M St) := fun A a => ret a.
#[global] Instance M_bind {St} : MBind (M St) := fun A B k m => bind m k.

(** [for x in l: body(x)], left to right, stopping at the first exception. *)
Fixpoint for_each {St A} (l : list A) (body : A -> M St unit) : M St unit :=
  match l with
  | [] => ret tt
  | x :: l' => body x;; for_each l' body
  end.

Definition lift_io {A} (m : M world A) : M state A :=
  fun s => let '(r, w) := m (io s) in
           (r, mkState (to_process s) (processed_paths s) (frontend_files s) w).

Definition emit (ev : event) : M world unit :=
  fun w => (Ok tt, mkWorld (log w ++ [ev]) (history w)).

(** [item[key]] *)
Definition getitem {St} (it : item) (key : string) : M St string :=
  match it !! key with
  | Some v => ret v
  | None => raise (KeyError key)
  end.

(** ** The methods of [GitHubRepoExtractor] *)

Section GitHubRepoExtractor.

Variable R : remote.

(** [self.base_url], line 13. *)
Definition base_url : string := "https://api.github.com".

(** [requests.get(url, headers=...)]: the request is recorded, then the
    remote answers from what was asked before. *)
Definition requests_get (q : request) : M world response :=
  fun w =>
    let w' := mkWorld (log w) (history w ++ [q]) in
    match R (history w) q with
    | inl e => (Raise e, w')
    | inr resp => (Ok resp, w')
    end.

(** [response.json()] *)
Definition response_json (resp : response) : M world json :=
  match json_body resp with
  | Some j => mret j
  | None => raise JSONDecodeError
  end.

(** The f-string of line 17 and the headers of line 18. *)
Definition contents_url (owner repo path : string) : string :=
  (base_url ++ "/repos/" ++ owner ++ "/" ++ repo ++ "/contents/" ++ path)%string.
Definition accept_headers : list (string * string) :=
  [("Accept", "application/vnd.github.v3+json")].

(** Lines 15-22. *)
Definition get_repo_contents (owner repo path : string) : M world json :=
  response ← requests_get (mkRequest (contents_url owner repo path) accept_headers);
  if decide (status_code response ≠ 200%Z) then
    j ← response_json response;
    match j with
    | JObject o => raise (GitHubAPIError (default "Unknown error" (o !! "message")))
    | JArray _ => raise AttributeError
    end
  else response_json response.

(** Lines 24-29. *)
Definition get_file_content (download_url : string) : M world string :=
  response ← requests_get (mkRequest download_url []);
  if decide (status_code response ≠ 200%Z)
  then raise (FetchContentError (status_code response))
  else mret (text response).

(** Line 43. *)
Definition frontend_extensions : list string :=
  [".html"; ".css"; ".js"; ".jsx"; ".tsx"; ".vue"; ".py"].

(** [to_process.append((p, []))], line 61. *)
Definition to_process_append (p : string) : M state unit :=
  fun s => (Ok tt, mkState (to_process s ++ [(p, [])]) (processed_paths s)
                           (frontend_files s) (io s)).

(** [frontend_files.append(f)], line 66. *)
Definition frontend_files_append (f : file_record) : M state unit :=
  fun s => (Ok tt, mkState (to_process s) (processed_paths s)
                           (frontend_files s ++ [f]) (io s)).

(** The body of the innermost [try], lines 65-73. *)
Definition fetch_and_record (it : item) : M state unit :=
  download_url ← getitem it "download_url";
  file_content ← lift_io (get_file_content download_url);
  p ← getitem it "path";
  name ← getitem it "name";
  frontend_files_append (mkFile p file_content (PyStr.path_suffix name));;
  p' ← getitem it "path";
  lift_io (emit (Found p')).

(** The body of [for item in contents], lines 60-75. *)
Definition process_item (it : item) : M state unit :=
  ty ← getitem it "type";
  if decide (ty = "dir") then
    p ← getitem it "path";
    to_process_append p
  else if decide (ty = "file") then
    name ← getitem it "name";
    if decide (PyStr.path_suffix name ∈ frontend_extensions) then
      try_except (fetch_and_record it)
        (fun e => p ← getitem it "path"; lift_io (emit (CouldntFetch p e)))
    else mret tt
  else mret tt.

(** Lines 56-57: a response that is not a list becomes a one-element list. *)
Definition normalize (contents : json) : list item :=
  match contents with
  | JArray l => l
  | JObject o => [o]
  end.

(** The body of the [try] of line 52, lines 53-75. *)
Definition list_directory (owner repo_name current_path : string) : M state unit :=
  contents ← lift_io (get_repo_contents owner repo_name current_path);
  for_each (normalize contents) process_item.

(** The [try] of lines 52-79 with its handler. *)
Definition visit (owner repo_name current_path : string) : M state unit :=
  try_except (list_directory owner repo_name current_path)
    (fun e => lift_io (emit (ErrorProcessing current_path e))).

(** One pass of the [while] body, lines 46-79, after
    [current_path, current_files = to_process.pop(0)] left [rest]. *)
Definition iteration (owner repo_name current_path : string)
    (rest : list (string * list item)) (s : state) : result unit * state :=
  if decide (current_path ∈ processed_paths s) then
    (Ok tt, mkState rest (processed_paths s) (frontend_files s) (io s))
  else
    visit owner repo_name current_path
      (mkState rest ({[current_path]} ∪ processed_paths s) (frontend_files s) (io s)).

(** [while to_process: ...], lines 45-79.  The first component is [None]
    when the loop is still running after [fuel] passes; the state is the one
    reached. *)
Fixpoint while_to_process (fuel : nat) (owner repo_name : string) (s : state)
  {struct fuel} : option (result unit) * state :=
  match to_process s with
  | [] => (Some (Ok tt), s)
  | (current_path, current_files) :: rest =>
      match fuel with
      | O => (None, s)
      | S fuel' =>
          match iteration owner repo_name current_path rest s with
          | (Ok _, s') => while_to_process fuel' owner repo_name s'
          | (Raise e, s') => (Some (Raise e), s')
          end
      end
  end.

(** Line 35: [repo_url.split('github.com/')[-1].split('/')]. *)
Definition url_parts (repo_url : string) : list string :=
  PyStr.split "/" (PyStr.last_piece (PyStr.split "github.com/" repo_url)).

(** Lines 35-36: [parts[1]] raises [IndexError] on a list of one piece. *)
Definition parse_repo_url (repo_url : string) : result (string * string) :=
  let parts := url_parts repo_url in
  match parts !! 0%nat, parts !! 1%nat with
  | Some owner, Some repo_name => Ok (owner, repo_name)
  | _, _ => Raise IndexError
  end.

(** The locals as lines 38-40 initialise them. *)
Definition initial_state (w : world) : state := mkState [("", [])] ∅ [] w.

(** The body of the outer [try], lines 34-85: Python's [None] is [None], a
    list is [Some]. *)
Definition extract_body (fuel : nat) (repo_url : string) (w : world)
  : option (result (option (list file_record))) * world :=
  match parse_repo_url repo_url with
  | Raise e => (Some (Raise e), w)
  | Ok (owner, repo_name) =>
      match while_to_process fuel owner repo_name (initial_state w) with
      | (None, s) => (None, io s)
      | (Some (Raise e), s) => (Some (Raise e), io s)
      | (Some (Ok _), s) =>
          match frontend_files s with
          | [] => (Some (Ok None), snd (emit NoFrontendFiles (io s)))
          | _ :: _ => (Some (Ok (Some (frontend_files s))), io s)
          end
      end
  end.

(** Lines 31-89, with the handler of lines 87-89. *)
Definition extract_frontend_files (fuel : nat) (repo_url : string) (w : world)
  : option (result (option (list file_record))) * world :=
  match extract_body fuel repo_url w with
  | (None, w') => (None, w')
  | (Some (Ok r), w') => (Some (Ok r), w')
  | (Some (Raise e), w') => (Some (Ok None), snd (emit (ErrorExtracting e) w'))
  end.

End GitHubRepoExtractor.

(** ** [UIGenerator.extract_code] *)

Section UIGenerator.

(** The line feed, and the two fences of the pattern of line 176:
    three backticks, [python] and a line feed; a line feed and three
    backticks. *)
Definition line_feed : string := String "010"%char EmptyString.
Definition fence_open : string := ("```python" ++ line_feed)%string.
Definition fence_close : string := (line_feed ++ "```")%string.

(** [s[n:]] *)
Fixpoint drop_chars (n : nat) (s : string) : string :=
  match n, s with
  | O, _ => s
  | S n', String _ s' => drop_chars n' s'
  | S _, EmptyString => EmptyString
  end.

(** The text before and the text after the leftmost occurrence of [pat]. *)
Fixpoint find_first (pat s : string) : option (string * string) :=
  if String.prefix pat s then Some (EmptyString, drop_chars (String.length pat) s)
  else match s with
       | EmptyString => None
       | String c s' =>
           match find_first pat s' with
           | Some (before, after) => Some (String c before, after)
           | None => None
           end
       end.

(** Lines 175-177.  [re.search] with [re.DOTALL] takes the leftmost opening
    fence that has a closing fence after it, and the lazy group [(.*?)]
    ends at the first closing fence; a closing fence after a later opening
    fence is one after the leftmost, so the leftmost opening fence decides.
    Without a match the content is returned as it is. *)
Definition extract_code (content : string) : string :=
  match find_first fence_open content with
  | None => content
  | Some (_, after_open) =>
      match find_first fence_close after_open with
      | Some (code, _) => code
      | None => content
      end
  end.

End UIGenerator.

(** ** [GitHubRepoExtractor.get_repo_info] *)

Module RepoInfo.

Section RepoInfo.

(** The JSON values of the repository object.  [get_repo_info] hands them
    on without looking into them, so their type is left open. *)
Variable V : Type.

(** A value of the returned dict: a value of the response, or one of the
    defaults [''] and [0] of lines 105-108. *)
Inductive value : Type :=
| FromJson (v : V)
| PyStr (s : string)
| PyInt (z : Z).

(** The dict of lines 103-109. *)
Record info : Type := mkInfo {
  name : value;
  description : value;
  language : value;
  stars : value;
  forks : value
}.

(** What [response.json()] gives: an object, or JSON of another kind. *)
Inductive body : Type :=
| Object (o : gmap string V)
| NotAnObject.

(** A response; [json = None] when [.json()] raises. *)
Record response : Type := mkResponse {
  status_code : Z;
  json : option body
}.

(** The exceptions of the walker, and the [TypeError] of subscripting JSON
    that is not an object. *)
Inductive failure : Type :=
| Walker (e : exn)
| TypeError.

Definition remote : Type := list request -> request -> failure + response.

Inductive event : Type :=
| FailedToFetch (message : value)      (* st.error, line 111 *)
| ErrorGettingInfo (e : failure).      (* st.error, line 115 *)

Record world : Type := mkWorld {
  log : list event;
  history : list request
}.

Variable R : remote.

(** [d.get(key, default)] *)
Definition dict_get (o : gmap string V) (key : string) (default : value) : value :=
  match o !! key with
  | Some v => FromJson v
  | None => default
  end.

(** The f-string of line 97. *)
Definition repo_url_of (owner repo_name : string) : string :=
  (base_url ++ "/repos/" ++ owner ++ "/" ++ repo_name)%string.

(** The body of the [try], lines 94-112. *)
Definition get_repo_info_body (repo_url : string) (w : world)
  : (failure + option info) * world :=
  match parse_repo_url repo_url with
  | Raise e => (inl (Walker e), w)
  | Ok (owner, repo_name) =>
      let q := mkRequest (repo_url_of owner repo_name) accept_headers in
      let w1 := mkWorld (log w) (history w ++ [q]) in
      match R (history w) q with
      | inl e => (inl e, w1)
      | inr resp =>
          if decide (status_code resp = 200%Z) then
            match json resp with
            | None => (inl (Walker JSONDecodeError), w1)
            | Some NotAnObject => (inl TypeError, w1)
            | Some (Object repo_data) =>
                match repo_data !! "name" with
                | None => (inl (Walker (KeyError "name")), w1)
                | Some v =>
                    (inr (Some (mkInfo (FromJson v)
                                  (dict_get repo_data "description" (PyStr ""))
                                  (dict_get repo_data "language" (PyStr ""))
                                  (dict_get repo_data "stargazers_count" (PyInt 0))
                                  (dict_get repo_data "forks_count" (PyInt 0)))),
                     w1)
                end
            end
          else
            match json resp with
            | None => (inl (Walker JSONDecodeError), w1)
            | Some NotAnObject => (inl (Walker AttributeError), w1)
            | Some (Object o) =>
                (inr None,
                 mkWorld (log w1 ++ [FailedToFetch (dict_get o "message" (PyStr ""))])
                         (history w1))
            end
      end
  end.

(** Lines 91-116, with the handler of lines 114-116. *)
Definition get_repo_info (repo_url : string) (w : world) : option info * world :=
  match get_repo_info_body repo_url w with
  | (inr r, w') => (r, w')
  | (inl e, w') => (None, mkWorld (log w' ++ [ErrorGettingInfo e]) (history w'))
  end.

End RepoInfo.

End RepoInfo.

(** ** The vocabulary of the properties *)

(** A request without headers is a content fetch; the listing requests carry
    the [Accept] header of line 18. *)
Definition is_listing (q : request) : Prop := headers q ≠ [].
Definition is_content (q : request) : Prop := headers q = [].

#[global] Instance is_listing_dec q : Decision (is_listing q).
Proof. unfold is_listing. apply _. Defined.
#[global] Instance is_content_dec q : Decision (is_content q).
Proof. unfold is_content. apply _. Defined.

(** What one entry appends to [to_process]. *)
Definition item_enqueues (it : item) : list (string * list item) :=
  match it !! "type", it !! "path" with
  | Some ty, Some p => if decide (ty = "dir") then [(p, [])] else []
  | _, _ => []
  end.

(** [s'] comes from [s] by statements of the [for] body: the visited set is
    untouched, the queue, the records, the log and the history only grow at
    their end, and the new requests are content fetches. *)
Record grows (s s' : state) : Prop := mkGrows {
  grows_processed : processed_paths s' = processed_paths s;
  grows_queue : to_process s `prefix_of` to_process s';
  grows_files : frontend_files s `prefix_of` frontend_files s';
  grows_log : log (io s) `prefix_of` log (io s');
  grows_history : ∃ reqs, history (io s') = history (io s) ++ reqs
                          ∧ Forall is_content reqs
}.

(** The listing request that [get_repo_contents] sends for a path. *)
Definition listing_request (owner repo p : string) : request :=
  mkRequest (contents_url owner repo p) accept_headers.

(** The listing requests sent since the history was [h0] are those of
    distinct paths, all of them in the visited set. *)
Definition listed_once (h0 : list request) (owner repo : string) (s : state) : Prop :=
  ∃ new paths,
    history (io s) = h0 ++ new
    ∧ NoDup paths
    ∧ (∀ p, p ∈ paths → p ∈ processed_paths s)
    ∧ filter is_listing new = listing_request owner repo <$> paths.

(** The number of slashes of a string. *)
Fixpoint count_slash (s : string) : nat :=
  match s with
  | EmptyString => 0
  | String c s' => (if Ascii.eqb c "/"%char then 1 else 0) + count_slash s'
  end.

(** A remote without any directory or file: every request is answered 404. *)
Definition remote_404 : remote :=
  fun _ _ => inr (mkResponse 404 None "").

(** A remote whose root listing is the empty array. *)
Definition remote_empty : remote :=
  fun _ _ => inr (mkResponse 200 (Some (JArray [])) "").

(** The world before anything was logged or requested. *)
Definition world0 : world := mkWorld [] [].

(** C2, as the specification words it: on a URL with fewer than two pieces
    after the host marker the call fails, that is, an exception reaches the
    caller. *)
Definition malformed_url_fails : Prop :=
  ∀ (R : remote) fuel repo_url w,
    length (url_parts repo_url) < 2 →
    ∃ e, fst (extract_frontend_files R fuel repo_url w) = Some (Raise e).

(** The remote shows a finite tree: every listing it may send has at most
    [B] entries, and the paths of its directory entries all lie in [U]. *)
Record finite_tree (R : remote) (U : gset string) (B : nat) : Prop := mkFinite {
  finite_entries : ∀ h q resp j,
    is_listing q → R h q = inr resp → status_code resp = 200%Z →
    json_body resp = Some j → (length (normalize j) ≤ B)%nat;
  finite_paths : ∀ h q resp j it p,
    is_listing q → R h q = inr resp → status_code resp = 200%Z →
    json_body resp = Some j → it ∈ normalize j →
    it !! "type" = Some "dir" → it !! "path" = Some p → p ∈ U
}.

(** The passes the loop can still make: the queue, and [B] more entries for
    each path of the tree that has not been visited. *)
Definition weight (U : gset string) (B : nat) (s : state) : nat :=
  length (to_process s) + B * size (U ∖ processed_paths s).

(** Everything queued is a path of the tree. *)
Definition queue_in_tree (U : gset string) (s : state) : Prop :=
  ∀ x, x ∈ to_process s → fst x ∈ U.

(** The fuel that suffices for a tree of paths [U] and listings of at most
    [B] entries. *)
Definition enough_fuel (U : gset string) (B : nat) : nat :=
  S (B * size ({[""]} ∪ U)).

(** No listing that the remote may send has a file entry whose name carries
    an extension of the allow-list. *)
Definition no_matching_files (R : remote) : Prop :=
  ∀ h q resp j it name,
    is_listing q → R h q = inr resp → status_code resp = 200%Z →
    json_body resp = Some j → it ∈ normalize j →
    it !! "type" = Some "file" → it !! "name" = Some name →
    PyStr.path_suffix name ∉ frontend_extensions.

(** The notices of line 78, the only ones such a walk can give. *)
Definition is_listing_notice (ev : event) : Prop :=
  ∃ p e, ev = ErrorProcessing p e.

(** No record is ever appended, and the log only receives listing notices. *)
Definition nothing_found (l0 : list event) (s : state) : Prop :=
  frontend_files s = []
  ∧ ∃ notices, log (io s) = l0 ++ notices ∧ Forall is_listing_notice notices.

(** A directory entry and a file entry as the contents API sends them. *)
Definition dir_item (p name : string) : item :=
  <["type" := "dir"]> (<["path" := p]> (<["name" := name]> ∅)).
Definition file_item (p name download_url : string) : item :=
  <["type" := "file"]> (<["path" := p]> (<["name" := name]>
    (<["download_url" := download_url]> ∅))).

(** The repository of the specification's example: the root lists the
    directory [src] and the file [README.md], [src] lists [src/app.js], whose
    text is [c]. *)
Definition raw_app_js : string :=
  "https://raw.githubusercontent.com/acme/widgets/main/src/app.js".
Definition raw_readme : string :=
  "https://raw.githubusercontent.com/acme/widgets/main/README.md".

Definition example_remote (c : string) : remote :=
  fun _ q =>
    if decide (q = listing_request "acme" "widgets" "") then
      inr (mkResponse 200
             (Some (JArray [dir_item "src" "src";
                            file_item "README.md" "README.md" raw_readme])) "")
    else if decide (q = listing_request "acme" "widgets" "src") then
      inr (mkResponse 200
             (Some (JArray [file_item "src/app.js" "app.js" raw_app_js])) "")
    else if decide (q = mkRequest raw_app_js []) then
      inr (mkResponse 200 None c)
    else inr (mkResponse 404 None "").

(** The locals of two walks agree. *)
Definition same_locals (s1 s2 : state) : Prop :=
  to_process s1 = to_process s2
  ∧ processed_paths s1 = processed_paths s2
  ∧ frontend_files s1 = frontend_files s2.

(** Two walks are at the same point: their locals agree and their histories
    are [related]. *)
Definition sim (related : list request → list request → Prop)
    (s1 s2 : state) : Prop :=
  same_locals s1 s2 ∧ related (history (io s1)) (history (io s2)).

(** The listing of an empty directory. *)
Definition empty_listing : response := mkResponse 200 (Some (JArray [])) "".

(** The remote [R] with every listing that [get_repo_contents] would fail on
    (the request raises, the status is not 200, the body is no JSON) replaced
    by the listing of an empty directory.  Content fetches are untouched. *)
Definition failed_listings_as_empty (R : remote) : remote :=
  fun h q =>
    if decide (is_listing q) then
      match R h q with
      | inr resp =>
          if decide (status_code resp = 200%Z ∧ is_Some (json_body resp))
          then inr resp else inr empty_listing
      | inl _ => inr empty_listing
      end
    else R h q.

(** A repository whose root lists the directories [a] and [b]; the listing of
    [a] is answered 404, [b] lists the file [b/x.js]. *)
Definition sibling_remote : remote :=
  fun _ q =>
    if decide (q = listing_request "acme" "widgets" "") then
      inr (mkResponse 200 (Some (JArray [dir_item "a" "a"; dir_item "b" "b"])) "")
    else if decide (q = listing_request "acme" "widgets" "b") then
      inr (mkResponse 200
             (Some (JArray [file_item "b/x.js" "x.js" "https://raw/b/x.js"])) "")
    else if decide (q = mkRequest "https://raw/b/x.js" []) then
      inr (mkResponse 200 None "x()")
    else inr (mkResponse 404 None "").

(** The paths that [st.sidebar.write] announced, in the order of the log. *)
Definition found_paths (l : list event) : list string :=
  omap (λ ev, match ev with Found p => Some p | _ => None end) l.

(** From [s] to [s'] records were only appended, each one announced when it
    was appended: the new records are, in order, the new announcements. *)
Definition announced (s s' : state) : Prop :=
  ∃ fs, frontend_files s' = frontend_files s ++ fs
        ∧ found_paths (log (io s')) = found_paths (log (io s)) ++ (path <$> fs).

(** The paths taken from the queue during the loop, in the order of the
    passes. *)
Fixpoint dequeued (R : remote) (fuel : nat) (owner repo_name : string)
    (s : state) {struct fuel} : list string :=
  match to_process s with
  | [] => []
  | (current_path, _) :: rest =>
      match fuel with
      | O => []
      | S fuel' =>
          current_path ::
            match iteration R owner repo_name current_path rest s with
            | (Ok _, s') => dequeued R fuel' owner repo_name s'
            | (Raise _, _) => []
            end
      end
  end.

(** The paths appended to the queue during the loop, in the order in which
    they were appended: what each pass left behind [rest]. *)
Fixpoint enqueued (R : remote) (fuel : nat) (owner repo_name : string)
    (s : state) {struct fuel} : list string :=
  match to_process s with
  | [] => []
  | (current_path, _) :: rest =>
      match fuel with
      | O => []
      | S fuel' =>
          match iteration R owner repo_name current_path rest s with
          | (Ok _, s') =>
              (fst <$> drop (length rest) (to_process s'))
                ++ enqueued R fuel' owner repo_name s'
          | (Raise _, s') => fst <$> drop (length rest) (to_process s')
          end
      end
  end.

(** A tree of depth two: the root lists [a], [b] and [r.js]; [a] lists
    [a/c] and [a/x.js]; [b] lists [b/y.js]; [a/c] lists [a/c/z.js].  A
    content fetch answers with the URL that was asked. *)
Definition bfs_remote : remote :=
  fun _ q =>
    if decide (is_content q) then inr (mkResponse 200 None (url q))
    else if decide (q = listing_request "acme" "widgets" "") then
      inr (mkResponse 200
             (Some (JArray [dir_item "a" "a"; dir_item "b" "b";
                            file_item "r.js" "r.js" "raw/r.js"])) "")
    else if decide (q = listing_request "acme" "widgets" "a") then
      inr (mkResponse 200
             (Some (JArray [dir_item "a/c" "c";
                            file_item "a/x.js" "x.js" "raw/a/x.js"])) "")
    else if decide (q = listing_request "acme" "widgets" "b") then
      inr (mkResponse 200
             (Some (JArray [file_item "b/y.js" "y.js" "raw/b/y.js"])) "")
    else if decide (q = listing_request "acme" "widgets" "a/c") then
      inr (mkResponse 200
             (Some (JArray [file_item "a/c/z.js" "z.js" "raw/a/c/z.js"])) "")
    else inr (mkResponse 404 None "").

(** A repository without frontend files: the root lists the directory
    [docs] and [README.md], [docs] lists [docs/guide.txt]. *)
Definition docs_remote : remote :=
  fun _ q =>
    if decide (q = listing_request "acme" "widgets" "") then
      inr (mkResponse 200
             (Some (JArray [dir_item "docs" "docs";
                            file_item "README.md" "README.md" raw_readme])) "")
    else if decide (q = listing_request "acme" "widgets" "docs") then
      inr (mkResponse 200
             (Some (JArray [file_item "docs/guide.txt" "guide.txt" "raw/guide.txt"])) "")
    else inr (mkResponse 404 None "").

(** A root that lists the same directory twice and a directory that lists
    itself and the root again: each listing is asked for once. *)
Definition cyclic_remote : remote :=
  fun _ q =>
    if decide (q = listing_request "acme" "widgets" "") then
      inr (mkResponse 200
             (Some (JArray [dir_item "loop" "loop"; dir_item "loop" "loop"])) "")
    else if decide (q = listing_request "acme" "widgets" "loop") then
      inr (mkResponse 200
             (Some (JArray [dir_item "loop" "loop"; dir_item "" ""])) "")
    else inr (mkResponse 404 None "").

(** The record [f] holds the text of an answer with status 200 that the
    remote gave to a content request recorded in the history [h]. *)
Definition fetched (R : remote) (h : list request) (f : file_record) : Prop :=
  ∃ h1 h2 d resp,
    h = h1 ++ mkRequest d [] :: h2
    ∧ R h1 (mkRequest d []) = inr resp
    ∧ status_code resp = 200%Z
    ∧ content f = text resp.

(** Every record found so far has an extension of the allow-list and a text
    that was fetched. *)
Definition sound_records (R : remote) (s : state) : Prop :=
  Forall (λ f, type f ∈ frontend_extensions ∧ fetched R (history (io s)) f)
         (frontend_files s).

(** The entries on which the body of the [for] loop raises: a key that the
    body reads is missing.  A file entry without ['download_url'] is not
    among them, the handler of line 74 takes that [KeyError]. *)
Definition malformed_entry (it : item) : Prop :=
  match it !! "type" with
  | None => True
  | Some ty =>
      if decide (ty = "dir") then it !! "path" = None
      else if decide (ty = "file") then
        match it !! "name" with
        | None => True
        | Some n => PyStr.path_suffix n ∈ frontend_extensions ∧ it !! "path" = None
        end
      else False
  end.

(** A listing with an entry that has no ['type'] between two directories. *)
Definition broken_listing_remote : remote :=
  fun _ q =>
    if decide (q = listing_request "acme" "widgets" "") then
      inr (mkResponse 200
             (Some (JArray [dir_item "a" "a"; ∅; dir_item "b" "b"])) "")
    else inr (mkResponse 404 None "").

(** Whether the character [c] occurs in [s]. *)
Fixpoint contains_char (c : ascii) (s : string) : bool :=
  match s with
  | EmptyString => false
  | String c' s' => Ascii.eqb c c' || contains_char c s'
  end.

(** Whether [sep] occurs nowhere in [s]. *)
Fixpoint occurs_free (sep s : string) : bool :=
  negb (String.prefix sep s)
  && match s with
     | EmptyString => true
     | String _ s' => occurs_free sep s'
     end.

(** The request of lines 97-99 of [get_repo_info]. *)
Definition info_request (owner repo_name : string) : request :=
  mkRequest (RepoInfo.repo_url_of owner repo_name) accept_headers.

(** A metadata endpoint that answers every request with the object
    [{"name": 7}]. *)
Definition info_remote_name_only : RepoInfo.remote Z :=
  fun _ _ => inr (RepoInfo.mkResponse Z 200 (Some (RepoInfo.Object Z {["name" := 7%Z]}))).




#[global] Instance malformed_entry_dec it : Decision (malformed_entry it).
Proof.
  unfold malformed_entry. destruct (it !! "type") as [ty|]; [|apply _].
  destruct (decide (ty = "dir")); [apply _|].
  destruct (decide (ty = "file")); [|apply _].
  destruct (it !! "name"); apply _.
Defined.







(** * Properties *)

(** ** What a statement can change *)

Ltac unfold_M :=
  unfold getitem, to_process_append, frontend_files_append, lift_io, emit,
    mbind, mret, M_bind, M_ret, bind, ret, raise, try_except in *.

Lemma grows_refl s : grows s s.
Proof.
  split; try reflexivity. exists []. by rewrite app_nil_r.
Qed.

Lemma grows_trans s1 s2 s3 : grows s1 s2 → grows s2 s3 → grows s1 s3.
Proof.
  intros [Hp1 Hq1 Hf1 Hl1 (r1 & Hh1 & Hc1)] [Hp2 Hq2 Hf2 Hl2 (r2 & Hh2 & Hc2)].
  split.
  - congruence.
  - by etrans.
  - by etrans.
  - by etrans.
  - exists (r1 ++ r2). split.
    + by rewrite Hh2, Hh1, app_assoc.
    + by apply Forall_app.
Qed.

Ltac solve_grows :=
  split; simpl;
  [ done
  | repeat apply prefix_app_r; done
  | repeat apply prefix_app_r; done
  | repeat apply prefix_app_r; done
  | first [ exists []; split; [by rewrite app_nil_r | by constructor]
          | eexists; split; [reflexivity | by repeat constructor] ] ].

Section Effects.

Variable R : remote.

Lemma requests_get_world q w :
  snd (requests_get R q w) = mkWorld (log w) (history w ++ [q]).
Proof. unfold requests_get. by destruct (R (history w) q). Qed.

Lemma get_repo_contents_world owner repo p w :
  snd (get_repo_contents R owner repo p w)
  = mkWorld (log w) (history w ++ [mkRequest (contents_url owner repo p) accept_headers]).
Proof.
  unfold get_repo_contents, requests_get, response_json. unfold_M.
  destruct (R _ _) as [e|resp]; [done|].
  case_decide; destruct (json_body resp) as [[o|l]|]; done.
Qed.

Lemma get_file_content_world d w :
  snd (get_file_content R d w) = mkWorld (log w) (history w ++ [mkRequest d []]).
Proof.
  unfold get_file_content, requests_get. unfold_M.
  destruct (R _ _) as [e|resp]; [done|]. by case_decide.
Qed.

Lemma fetch_and_record_grows it s : grows s (snd (fetch_and_record R it s)).
Proof.
  unfold fetch_and_record. unfold_M.
  destruct (it !! "download_url") as [d|]; cbv beta iota; [|apply grows_refl].
  pose proof (get_file_content_world d (io s)) as Hw.
  destruct (get_file_content R d (io s)) as [[c|e] w]; simpl in Hw; subst w;
    cbv beta iota; [|solve_grows].
  destruct (it !! "path") as [p|]; cbv beta iota; [|solve_grows].
  destruct (it !! "name") as [n|]; cbv beta iota; solve_grows.
Qed.

Lemma process_item_grows it s : grows s (snd (process_item R it s)).
Proof.
  unfold process_item.
  unfold mbind, M_bind, bind, getitem at 1.
  destruct (it !! "type") as [ty|]; cbv beta iota; [|apply grows_refl].
  unfold ret at 1. cbv beta iota. case_decide.
  - unfold_M. destruct (it !! "path"); cbv beta iota; [|apply grows_refl].
    solve_grows.
  - case_decide; [|apply grows_refl].
    unfold mbind, M_bind, bind, getitem at 1.
    destruct (it !! "name") as [n|]; cbv beta iota; [|apply grows_refl].
    unfold ret at 1. cbv beta iota.
    case_decide; [|apply grows_refl].
    unfold try_except.
    pose proof (fetch_and_record_grows it s) as Hg.
    destruct (fetch_and_record R it s) as [[[]|e] s1]; simpl in Hg; [done|].
    unfold_M. destruct (it !! "path"); cbv beta iota; [|done].
    eapply grows_trans; [exact Hg|]. solve_grows.
Qed.

Lemma for_each_grows l s : grows s (snd (for_each l (process_item R) s)).
Proof.
  revert s. induction l as [|it l IH]; intros s; simpl.
  - apply grows_refl.
  - unfold mbind, M_bind, bind.
    pose proof (process_item_grows it s) as Hg.
    destruct (process_item R it s) as [[[]|e] s1]; simpl in Hg; [|done].
    eapply grows_trans; [exact Hg|apply IH].
Qed.

(** The handler of line 77 catches everything: a visit never raises. *)
Lemma visit_ok owner repo p s : fst (visit R owner repo p s) = Ok tt.
Proof.
  unfold visit, try_except.
  destruct (list_directory R owner repo p s) as [[[]|e] s1]; [done|].
  by unfold_M.
Qed.

(** A visit sends the listing request of its path first, then content
    fetches only; it leaves the visited set alone and appends to the rest. *)
Lemma visit_effects owner repo p s r s' :
  visit R owner repo p s = (r, s') →
  processed_paths s' = processed_paths s
  ∧ to_process s `prefix_of` to_process s'
  ∧ frontend_files s `prefix_of` frontend_files s'
  ∧ log (io s) `prefix_of` log (io s')
  ∧ ∃ reqs, history (io s') = history (io s) ++ listing_request owner repo p :: reqs
            ∧ Forall is_content reqs.
Proof.
  unfold visit, try_except, list_directory.
  unfold mbind, M_bind, bind, lift_io.
  pose proof (get_repo_contents_world owner repo p (io s)) as Hw.
  destruct (get_repo_contents R owner repo p (io s)) as [[j|e] w];
    simpl in Hw; subst w; cbv beta iota.
  - set (s1 := mkState _ _ _ _).
    pose proof (for_each_grows (normalize j) s1) as [Hp Hq Hf Hl (reqs & Hh & Hc)].
    destruct (for_each (normalize j) (process_item R) s1) as [[[]|e] s2];
      simpl in Hp, Hq, Hf, Hl, Hh; unfold_M; intros [= <- <-]; simpl.
    + split_and!; try done. exists reqs. by rewrite Hh, <- app_assoc.
    + split_and!; try done.
      * by apply prefix_app_r.
      * exists reqs. by rewrite Hh, <- app_assoc.
  - unfold_M. intros [= <- <-]. simpl. split_and!; try done.
    + by apply prefix_app_r.
    + by exists [].
Qed.

Lemma iteration_ok owner repo p rest s :
  fst (iteration R owner repo p rest s) = Ok tt.
Proof. unfold iteration. case_decide; [done|apply visit_ok]. Qed.

(** A property that every pass of the loop keeps holds of the state the
    loop reaches, whether the fuel sufficed or not. *)
Lemma while_invariant (P : state → Prop) owner repo :
  (∀ p fs rest s, to_process s = (p, fs) :: rest → P s →
                  P (snd (iteration R owner repo p rest s))) →
  ∀ fuel s, P s → P (snd (while_to_process R fuel owner repo s)).
Proof.
  intros Hstep fuel. induction fuel as [|fuel IH]; intros s HP; simpl.
  - destruct (to_process s) as [|[p fs] rest]; done.
  - destruct (to_process s) as [|[p fs] rest] eqn:Hq; [done|].
    specialize (Hstep p fs rest s Hq HP).
    destruct (iteration R owner repo p rest s) as [[[]|e] s']; simpl in *; auto.
Qed.

(** The loop itself never raises. *)
Lemma while_no_raise fuel owner repo s e :
  fst (while_to_process R fuel owner repo s) ≠ Some (Raise e).
Proof.
  revert s. induction fuel as [|fuel IH]; intros s; simpl.
  - destruct (to_process s) as [|[p fs] rest]; done.
  - destruct (to_process s) as [|[p fs] rest]; [done|].
    pose proof (iteration_ok owner repo p rest s) as Hok.
    destruct (iteration R owner repo p rest s) as [[[]|e'] s']; simpl in *; [apply IH|done].
Qed.

End Effects.

(** ** The visited set and the listing requests *)

Lemma contents_url_inj owner repo : Inj (=) (=) (contents_url owner repo).
Proof.
  intros p1 p2 H. unfold contents_url in H.
  repeat (apply (inj (String.app _)) in H). exact H.
Qed.

Lemma listing_request_inj owner repo : Inj (=) (=) (listing_request owner repo).
Proof.
  intros p1 p2 H. apply (f_equal url) in H. simpl in H.
  by apply contents_url_inj in H.
Qed.

Lemma filter_listing_content (reqs : list request) :
  Forall is_content reqs → filter is_listing reqs = [].
Proof.
  induction 1 as [|q reqs Hq _ IH]; [done|].
  rewrite filter_cons_False; [done|]. unfold is_listing, is_content in *. by rewrite Hq; intros [].
Qed.

Lemma iteration_listed_once R h0 owner repo p rest s :
  listed_once h0 owner repo s →
  listed_once h0 owner repo (snd (iteration R owner repo p rest s)).
Proof.
  intros (new & paths & Hh & Hnd & Hsub & Hf). unfold iteration.
  case_decide as Hin.
  - exists new, paths. by simpl.
  - destruct (visit R _ _ _ _) as [r s'] eqn:Hv.
    apply visit_effects in Hv as (Hp & _ & _ & _ & reqs & Hh' & Hc).
    simpl in *. exists (new ++ listing_request owner repo p :: reqs), (paths ++ [p]).
    split_and!.
    + by rewrite Hh', Hh, <- app_assoc.
    + apply NoDup_app. split_and!; [done| |apply NoDup_singleton].
      intros x Hx ->%list_elem_of_singleton. by apply Hin, Hsub.
    + intros x [Hx| ->%list_elem_of_singleton]%elem_of_app; rewrite Hp.
      * apply elem_of_union_r. by apply Hsub.
      * apply elem_of_union_l. by apply elem_of_singleton.
    + rewrite filter_app, filter_cons_True by (unfold is_listing; done).
      rewrite (filter_listing_content reqs Hc), Hf.
      by rewrite fmap_app.
Qed.

Lemma while_listed_once R h0 owner repo fuel s :
  listed_once h0 owner repo s →
  listed_once h0 owner repo (snd (while_to_process R fuel owner repo s)).
Proof.
  apply (while_invariant R (listed_once h0 owner repo)).
  intros p fs rest s0 _. apply iteration_listed_once.
Qed.

(** The world that [extract_frontend_files] returns has the history of the
    loop's last state, or the incoming one when the URL did not parse. *)
Lemma extract_history R fuel repo_url w :
  history (snd (extract_frontend_files R fuel repo_url w))
  = match parse_repo_url repo_url with
    | Ok (owner, repo_name) =>
        history (io (snd (while_to_process R fuel owner repo_name (initial_state w))))
    | Raise _ => history w
    end.
Proof.
  unfold extract_frontend_files, extract_body.
  destruct (parse_repo_url repo_url) as [[owner repo_name]|e]; [|done].
  destruct (while_to_process _ _ _ _ _) as [[[[]|e]|] s]; simpl; try done.
  by destruct (frontend_files s).
Qed.

(** C1.  Whatever the remote answers, and whether or not the walk has
    finished within the fuel, the listing requests sent by one call of
    [extract_frontend_files] are the requests of pairwise distinct paths: no
    directory's listing is requested twice.  A pass of the loop on a path
    that is already in the visited set only drops it from the queue: no
    request, no record, no notice. *)
Theorem C1_each_path_listed_at_most_once R fuel repo_url w :
  (∃ new paths,
     history (snd (extract_frontend_files R fuel repo_url w)) = history w ++ new
     ∧ NoDup paths
     ∧ NoDup (filter is_listing new)
     ∧ ∀ owner repo_name, parse_repo_url repo_url = Ok (owner, repo_name) →
         filter is_listing new = listing_request owner repo_name <$> paths)
  ∧ (∀ owner repo_name p rest s,
       p ∈ processed_paths s →
       iteration R owner repo_name p rest s
       = (Ok tt, mkState rest (processed_paths s) (frontend_files s) (io s))).
Proof.
  split.
  - rewrite extract_history.
    destruct (parse_repo_url repo_url) as [[owner repo_name]|e] eqn:Hparse.
    + assert (listed_once (history w) owner repo_name (initial_state w)) as Hinit.
      { exists [], []. simpl. rewrite app_nil_r. split_and!; try done.
        - apply NoDup_nil_2.
        - intros p Hp. by apply elem_of_nil in Hp. }
      apply (while_listed_once R _ _ _ fuel) in Hinit as (new & paths & Hh & Hnd & _ & Hf).
      exists new, paths. split_and!; try done.
      * rewrite Hf. apply NoDup_fmap_2; [apply listing_request_inj|done].
      * by intros o r [= <- <-].
    + exists [], []. rewrite app_nil_r. split_and!; try done; apply NoDup_nil_2.
  - intros owner repo_name p rest s Hin. unfold iteration. by rewrite decide_True.
Qed.

(** ** The repository URL *)

Lemma split_from_slash s :
  length (snd (PyStr.split_from "/" 0 s)) = count_slash s.
Proof.
  induction s as [|c s IH]; [done|].
  cbn [PyStr.split_from count_slash String.prefix String.length Nat.sub].
  destruct (ascii_dec "/" c) as [<-|Hne].
  - simpl. replace (String.prefix "" s) with true by (by destruct s).
    destruct (PyStr.split_from "/" 0 s) as [p ps]. simpl in *. by rewrite IH.
  - destruct (Ascii.eqb_spec c "/"%char) as [->|_]; [done|].
    destruct (PyStr.split_from "/" 0 s) as [p ps]. simpl in *. by rewrite IH.
Qed.

(** [s.split('/')] has one piece more than [s] has slashes. *)
Lemma split_slash_length s : length (PyStr.split "/" s) = S (count_slash s).
Proof.
  unfold PyStr.split. pose proof (split_from_slash s) as H.
  destruct (PyStr.split_from "/" 0 s) as [p ps]. simpl in *. by rewrite H.
Qed.

Lemma url_parts_length repo_url :
  length (url_parts repo_url)
  = S (count_slash (PyStr.last_piece (PyStr.split "github.com/" repo_url))).
Proof. apply split_slash_length. Qed.

Lemma parse_repo_url_short repo_url :
  length (url_parts repo_url) < 2 → parse_repo_url repo_url = Raise IndexError.
Proof.
  unfold parse_repo_url. intros Hlen.
  destruct (url_parts repo_url) as [|a [|b l]]; simpl in *; try done. lia.
Qed.

Lemma parse_repo_url_raises repo_url e :
  parse_repo_url repo_url = Raise e → e = IndexError.
Proof.
  unfold parse_repo_url.
  destruct (url_parts repo_url !! 0%nat), (url_parts repo_url !! 1%nat); congruence.
Qed.

(** C2 (counterexample).  On ["https://github.com/acme"], which has a single
    piece after the host marker, the call does not fail: it returns [None],
    the very value it returns for a repository with an empty root listing. *)
Lemma C2_malformed_url_does_not_fail :
  length (url_parts "https://github.com/acme") < 2
  ∧ fst (extract_frontend_files remote_empty 5 "https://github.com/acme" world0)
    = Some (Ok None)
  ∧ fst (extract_frontend_files remote_empty 5 "https://github.com/acme/widgets" world0)
    = Some (Ok None)
  ∧ ¬ malformed_url_fails.
Proof.
  split_and!; [vm_compute; lia|by vm_compute..|].
  intros H.
  destruct (H remote_empty 5 "https://github.com/acme" world0) as [e He];
    [vm_compute; lia|].
  vm_compute in He. discriminate.
Qed.

(** C2 (amended).  When the text after the last ["github.com/"] has no
    second ['/']-separated piece, [parts[1]] raises [IndexError]; the outer
    handler reports it with [st.error] and the call returns [None] without
    any request.  The returned value is the one of "no matching files"; only
    the notice differs. *)
Theorem C2_malformed_url_returns_none (R : remote) fuel repo_url w :
  length (url_parts repo_url) < 2 →
  extract_frontend_files R fuel repo_url w
  = (Some (Ok None), mkWorld (log w ++ [ErrorExtracting IndexError]) (history w)).
Proof.
  intros Hlen. unfold extract_frontend_files, extract_body.
  by rewrite (parse_repo_url_short _ Hlen).
Qed.

Lemma C2_malformed_url_returns_none_witness :
  length (url_parts "https://github.com/acme") < 2
  ∧ extract_frontend_files remote_404 0 "https://github.com/acme" world0
    = (Some (Ok None), mkWorld [ErrorExtracting IndexError] []).
Proof.
  split; [vm_compute; lia|].
  apply (C2_malformed_url_returns_none remote_404 0 "https://github.com/acme" world0).
  vm_compute; lia.
Defined.

(** ** No exception leaves the call *)

(** When the listing of the root fails, the only pass of the loop records
    the failure and the queue is empty afterwards. *)
Lemma while_root_failure R fuel owner repo_name w e w1 :
  get_repo_contents R owner repo_name "" w = (Raise e, w1) →
  while_to_process R (S fuel) owner repo_name (initial_state w)
  = (Some (Ok tt),
     mkState [] {[""]} [] (mkWorld (log w1 ++ [ErrorProcessing "" e]) (history w1))).
Proof.
  intros Hget. cbn [while_to_process initial_state to_process].
  unfold iteration. rewrite decide_False by set_solver.
  unfold visit, try_except, list_directory.
  unfold mbind, M_bind, bind, lift_io. simpl. rewrite Hget. unfold_M. simpl.
  rewrite union_empty_r_L. by destruct fuel.
Qed.

(** C10.  Whatever the remote does and however far the walk got,
    [extract_frontend_files] never hands an exception to its caller, and
    what it returns is [None] or a list that is not empty.  A URL that does
    not parse and a root listing that cannot be fetched both end in the
    return value [None]. *)
Theorem C10_no_exception_none_or_nonempty (R : remote) fuel repo_url w :
  match fst (extract_frontend_files R fuel repo_url w) with
  | Some (Raise _) => False
  | Some (Ok (Some fs)) => fs ≠ []
  | Some (Ok None) => True
  | None => True
  end
  ∧ (∀ e, parse_repo_url repo_url = Raise e →
          fst (extract_frontend_files R fuel repo_url w) = Some (Ok None))
  ∧ (∀ owner repo_name e w1,
       parse_repo_url repo_url = Ok (owner, repo_name) →
       get_repo_contents R owner repo_name "" w = (Raise e, w1) →
       fst (extract_frontend_files R (S fuel) repo_url w) = Some (Ok None)).
Proof.
  split_and!.
  - unfold extract_frontend_files, extract_body.
    destruct (parse_repo_url repo_url) as [[owner repo_name]|e]; [|done].
    destruct (while_to_process _ _ _ _ _) as [[[[]|e]|] s]; simpl; try done.
    destruct (frontend_files s); simpl; done.
  - intros e He. unfold extract_frontend_files, extract_body. by rewrite He.
  - intros owner repo_name e w1 Hparse Hget.
    unfold extract_frontend_files, extract_body. rewrite Hparse.
    by rewrite (while_root_failure R fuel owner repo_name w e w1 Hget).
Qed.

Lemma C10_no_exception_none_or_nonempty_witness :
  fst (extract_frontend_files remote_404 1 "https://github.com/acme" world0) = Some (Ok None)
  ∧ fst (extract_frontend_files remote_404 1 "https://github.com/acme/widgets" world0)
    = Some (Ok None).
Proof.
  pose proof (C10_no_exception_none_or_nonempty remote_404 1
                "https://github.com/acme" world0) as (_ & Hurl & _).
  pose proof (C10_no_exception_none_or_nonempty remote_404 0
                "https://github.com/acme/widgets" world0) as (_ & _ & Hroot).
  split.
  - apply (Hurl IndexError). by vm_compute.
  - apply (Hroot "acme" "widgets" JSONDecodeError
             (mkWorld [] [listing_request "acme" "widgets" ""])); by vm_compute.
Defined.

(** ** Termination on a finite tree *)

Section Termination.

Variable R : remote.

Lemma process_item_queue it s :
  to_process (snd (process_item R it s)) = to_process s ++ item_enqueues it.
Proof.
  unfold process_item, item_enqueues.
  unfold mbind, M_bind, bind, getitem at 1.
  destruct (it !! "type") as [ty|]; cbv beta iota; [|by rewrite app_nil_r].
  unfold ret at 1. cbv beta iota. case_decide.
  - unfold_M. destruct (it !! "path"); cbv beta iota; [done|by rewrite app_nil_r].
  - case_decide; [|by destruct (it !! "path"); rewrite app_nil_r].
    unfold mbind, M_bind, bind, getitem at 1.
    destruct (it !! "name") as [n|]; cbv beta iota;
      [|by destruct (it !! "path"); rewrite app_nil_r].
    unfold ret at 1. cbv beta iota.
    case_decide; [|by destruct (it !! "path"); rewrite app_nil_r].
    assert (to_process (snd (fetch_and_record R it s)) = to_process s) as Hfr.
    { unfold fetch_and_record. unfold_M.
      destruct (it !! "download_url") as [d|]; cbv beta iota; [|done].
      destruct (get_file_content R d (io s)) as [[c|e] w]; cbv beta iota; [|done].
      destruct (it !! "path") as [p|]; cbv beta iota; [|done].
      destruct (it !! "name") as [n'|]; cbv beta iota; done. }
    unfold try_except.
    destruct (fetch_and_record R it s) as [[[]|e] s1]; simpl in Hfr.
    + simpl. rewrite Hfr. by destruct (it !! "path"); rewrite app_nil_r.
    + unfold_M. destruct (it !! "path"); simpl; by rewrite Hfr, app_nil_r.
Qed.

(** What a listing appends to the queue: at most one pair per entry, each
    the path of a directory entry. *)
Lemma for_each_queue l s :
  ∃ added,
    to_process (snd (for_each l (process_item R) s)) = to_process s ++ added
    ∧ (length added ≤ length l)%nat
    ∧ ∀ x, x ∈ added → ∃ it, it ∈ l ∧ x ∈ item_enqueues it.
Proof.
  revert s. induction l as [|it l IH]; intros s; simpl.
  - exists []. rewrite app_nil_r. split_and!; [done..|]. by intros x ?%elem_of_nil.
  - unfold mbind, M_bind, bind.
    pose proof (process_item_queue it s) as Hq.
    assert (length (item_enqueues it) ≤ 1)%nat as Hlen.
    { unfold item_enqueues. destruct (it !! "type"), (it !! "path"); simpl; try lia.
      case_decide; simpl; lia. }
    destruct (process_item R it s) as [[[]|e] s1]; simpl in Hq.
    + destruct (IH s1) as (added & Ha & Hl & Hin).
      exists (item_enqueues it ++ added). split_and!.
      * by rewrite Ha, Hq, app_assoc.
      * rewrite length_app. lia.
      * intros x [Hx|Hx]%elem_of_app.
        -- exists it. split; [apply list_elem_of_here|done].
        -- destruct (Hin x Hx) as (it' & ? & ?). exists it'.
           split; [by apply list_elem_of_further|done].
    + exists (item_enqueues it). simpl. split_and!; [done|lia|].
      intros x Hx. exists it. split; [apply list_elem_of_here|done].
Qed.

Lemma item_enqueues_dir it x :
  x ∈ item_enqueues it →
  it !! "type" = Some "dir" ∧ it !! "path" = Some (fst x).
Proof.
  unfold item_enqueues.
  destruct (it !! "type") as [ty|], (it !! "path") as [p|];
    try (by intros ?%elem_of_nil).
  case_decide as Hty; [|by intros ?%elem_of_nil].
  intros ->%list_elem_of_singleton. by subst ty.
Qed.

Lemma get_repo_contents_ok owner repo p w j w' :
  get_repo_contents R owner repo p w = (Ok j, w') →
  ∃ resp, R (history w) (listing_request owner repo p) = inr resp
          ∧ status_code resp = 200%Z ∧ json_body resp = Some j.
Proof.
  unfold get_repo_contents, requests_get, response_json, listing_request. unfold_M.
  destruct (R _ _) as [e|resp]; [done|].
  case_decide as Hst.
  - destruct (json_body resp) as [[o|l]|]; done.
  - destruct (json_body resp) as [j'|] eqn:Hj; [|done].
    intros [= <- <-]. exists resp. by split_and!.
Qed.

Variables (U : gset string) (B : nat).
Hypothesis Hfinite : finite_tree R U B.

Lemma visit_queue owner repo p s r s' :
  visit R owner repo p s = (r, s') →
  ∃ added, to_process s' = to_process s ++ added
           ∧ (length added ≤ B)%nat ∧ ∀ x, x ∈ added → fst x ∈ U.
Proof.
  unfold visit, try_except, list_directory.
  unfold mbind, M_bind, bind, lift_io.
  destruct (get_repo_contents R owner repo p (io s)) as [[j|e] w] eqn:Hget;
    cbv beta iota.
  - apply get_repo_contents_ok in Hget as (resp & HR & Hst & Hj).
    set (s1 := mkState _ _ _ _).
    destruct (for_each_queue (normalize j) s1) as (added & Ha & Hl & Hin).
    assert (is_listing (listing_request owner repo p)) as Hlist by done.
    assert ((length added ≤ B)%nat ∧ ∀ x, x ∈ added → fst x ∈ U) as [HB HU].
    { split.
      - etrans; [exact Hl|]. by eapply (finite_entries _ _ _ Hfinite).
      - intros x Hx. destruct (Hin x Hx) as (it & Hit & Hen).
        apply item_enqueues_dir in Hen as [Hty Hp].
        by eapply (finite_paths _ _ _ Hfinite). }
    destruct (for_each (normalize j) (process_item R) s1) as [[[]|e] s2];
      simpl in Ha; unfold_M; intros [= <- <-]; simpl; by exists added.
  - unfold_M. intros [= <- <-]. simpl. exists []. rewrite app_nil_r.
    split_and!; [done|simpl; lia|]. by intros x ?%elem_of_nil.
Qed.

(** Each pass keeps the queue inside the tree and lowers the weight. *)
Lemma iteration_weight owner repo p fs rest s :
  to_process s = (p, fs) :: rest → queue_in_tree U s →
  let s' := snd (iteration R owner repo p rest s) in
  queue_in_tree U s' ∧ (weight U B s' < weight U B s)%nat.
Proof.
  intros Hq Hin. cbv zeta. unfold iteration, weight, queue_in_tree in *.
  rewrite Hq in *.
  assert (∀ x, x ∈ rest → fst x ∈ U) as Hrest.
  { intros x Hx. apply Hin. by apply list_elem_of_further. }
  case_decide as Hp; simpl.
  - split; [done|lia].
  - destruct (visit R _ _ _ _) as [r s'] eqn:Hv. simpl.
    pose proof Hv as (Hpr & _)%visit_effects.
    apply visit_queue in Hv as (added & Ha & Hl & HU). simpl in *.
    rewrite Ha, Hpr. split.
    + intros x [?|?]%elem_of_app; auto.
    + assert (p ∈ U ∖ processed_paths s) as HpD.
      { apply elem_of_difference. split; [|done].
        apply (Hin (p, fs)), list_elem_of_here. }
      assert (U ∖ ({[p]} ∪ processed_paths s) = (U ∖ processed_paths s) ∖ {[p]}) as Hset.
      { apply set_eq. intros x. rewrite !elem_of_difference, elem_of_union.
        tauto. }
      rewrite Hset, size_difference, size_singleton
        by (by apply singleton_subseteq_l).
      assert (size (U ∖ processed_paths s) ≠ 0) as Hpos.
      { intros H0%size_empty_iff. apply (proj1 (H0 p)) in HpD.
        by apply not_elem_of_empty in HpD. }
      rewrite length_app. nia.
Qed.

(** Fuel equal to the weight is enough for the loop to finish. *)
Lemma while_terminates owner repo fuel s :
  queue_in_tree U s → (weight U B s ≤ fuel)%nat →
  fst (while_to_process R fuel owner repo s) = Some (Ok tt).
Proof.
  revert s. induction fuel as [|fuel IH]; intros s Hin Hw; simpl.
  - destruct (to_process s) as [|[p fs] rest] eqn:Hq; [done|].
    unfold weight in Hw. rewrite Hq in Hw. simpl in Hw. lia.
  - destruct (to_process s) as [|[p fs] rest] eqn:Hq; [done|].
    pose proof (iteration_weight owner repo p fs rest s Hq Hin) as [Hin' Hw'].
    pose proof (iteration_ok R owner repo p rest s) as Hok.
    destruct (iteration R owner repo p rest s) as [[[]|e] s']; simpl in *; [|done].
    apply IH; [done|lia].
Qed.

End Termination.

Lemma finite_tree_root R U B : finite_tree R U B → finite_tree R ({[""]} ∪ U) B.
Proof.
  intros [He Hp]. split; [done|].
  intros. apply elem_of_union_r. by eapply Hp.
Qed.

Lemma while_terminates_root R U B owner repo fuel w :
  finite_tree R U B → (enough_fuel U B ≤ fuel)%nat →
  fst (while_to_process R fuel owner repo (initial_state w)) = Some (Ok tt).
Proof.
  intros Hfin Hfuel.
  apply (while_terminates R ({[""]} ∪ U) B (finite_tree_root _ _ _ Hfin)).
  - intros x ->%list_elem_of_singleton. simpl. set_solver.
  - unfold weight, enough_fuel in *. simpl.
    rewrite difference_empty_L. lia.
Qed.

(** ** A repository without matching files *)

Section NoMatch.

Variable R : remote.

Lemma process_item_no_match it s r s' :
  (∀ name, it !! "type" = Some "file" → it !! "name" = Some name →
           PyStr.path_suffix name ∉ frontend_extensions) →
  process_item R it s = (r, s') →
  frontend_files s' = frontend_files s ∧ io s' = io s.
Proof.
  intros Hno. unfold process_item.
  unfold mbind, M_bind, bind, getitem at 1.
  destruct (it !! "type") as [ty|] eqn:Hty; cbv beta iota;
    [|by unfold_M; intros [= <- <-]].
  unfold ret at 1. cbv beta iota. case_decide.
  - unfold_M. by destruct (it !! "path"); intros [= <- <-].
  - case_decide as Hfile; [|by unfold_M; intros [= <- <-]]. subst ty.
    unfold mbind, M_bind, bind, getitem at 1.
    destruct (it !! "name") as [n|] eqn:Hn; cbv beta iota;
      [|by unfold_M; intros [= <- <-]].
    unfold ret at 1. cbv beta iota.
    case_decide as Hsfx; [|by unfold_M; intros [= <- <-]]. by destruct (Hno n).
Qed.

Lemma for_each_no_match l s r s' :
  Forall (λ it, ∀ name, it !! "type" = Some "file" → it !! "name" = Some name →
                        PyStr.path_suffix name ∉ frontend_extensions) l →
  for_each l (process_item R) s = (r, s') →
  frontend_files s' = frontend_files s ∧ io s' = io s.
Proof.
  intros Hl. revert s. induction Hl as [|it l Hit _ IH]; intros s; simpl.
  - unfold_M. by intros [= <- <-].
  - unfold mbind, M_bind, bind.
    destruct (process_item R it s) as [[[]|e] s1] eqn:Hpi;
      destruct (process_item_no_match _ _ _ _ Hit Hpi) as [Hf Hio].
    + intros Hfe. destruct (IH s1 Hfe) as [Hf' Hio']. split; congruence.
    + by intros [= <- <-].
Qed.

Hypothesis Hno : no_matching_files R.

Lemma visit_no_match owner repo p s r s' :
  visit R owner repo p s = (r, s') →
  frontend_files s' = frontend_files s
  ∧ ∃ notices, log (io s') = log (io s) ++ notices
               ∧ Forall is_listing_notice notices.
Proof.
  unfold visit, try_except, list_directory.
  unfold mbind, M_bind, bind, lift_io.
  pose proof (get_repo_contents_world R owner repo p (io s)) as Hw.
  destruct (get_repo_contents R owner repo p (io s)) as [[j|e] w] eqn:Hget;
    simpl in Hw; subst w; cbv beta iota.
  - apply get_repo_contents_ok in Hget as (resp & HR & Hst & Hj).
    set (s1 := mkState _ _ _ _).
    assert (is_listing (listing_request owner repo p)) as Hlist by done.
    assert (Forall (λ it, ∀ name, it !! "type" = Some "file" →
                it !! "name" = Some name →
                PyStr.path_suffix name ∉ frontend_extensions) (normalize j)) as Hall.
    { apply Forall_forall. intros it Hit name. by eapply Hno. }
    destruct (for_each (normalize j) (process_item R) s1) as [[[]|e] s2] eqn:Hfe;
      destruct (for_each_no_match _ _ _ _ Hall Hfe) as [Hf Hio];
      simpl in Hf, Hio; unfold_M; intros [= <- <-]; simpl; rewrite Hio; simpl.
    + split; [done|]. exists []. by rewrite app_nil_r.
    + split; [done|]. exists [ErrorProcessing p e]. split; [done|].
      apply Forall_singleton. by exists p, e.
  - unfold_M. intros [= <- <-]. simpl. split; [done|].
    exists [ErrorProcessing p e]. split; [done|].
    apply Forall_singleton. by exists p, e.
Qed.

Lemma while_nothing_found l0 owner repo fuel s :
  nothing_found l0 s →
  nothing_found l0 (snd (while_to_process R fuel owner repo s)).
Proof.
  apply (while_invariant R (nothing_found l0)).
  intros p fs rest s0 _ (Hf & notices & Hl & Hn). unfold iteration.
  case_decide; simpl.
  - split; [done|]. by exists notices.
  - destruct (visit R _ _ _ _) as [r s'] eqn:Hv.
    apply visit_no_match in Hv as (Hf' & more & Hl' & Hm). simpl in *.
    split; [congruence|]. exists (notices ++ more). split.
    + by rewrite Hl', Hl, app_assoc.
    + by apply Forall_app.
Qed.

End NoMatch.

(** C3.  For a repository none of whose listings shows a file with an
    allow-listed extension, the call returns [None]: no exception, and no
    error notice either.  The notices given are those of failed listings,
    closed by the warning that no frontend file was found.  On a finite tree
    the walk finishes within [enough_fuel]; before that the call is still
    running and has not returned anything else. *)
Theorem C3_no_matching_files_returns_none
    (R : remote) (U : gset string) (B : nat) fuel repo_url owner repo_name w :
  finite_tree R U B →
  no_matching_files R →
  parse_repo_url repo_url = Ok (owner, repo_name) →
  (enough_fuel U B ≤ fuel)%nat →
  (∃ notices h,
     extract_frontend_files R fuel repo_url w
     = (Some (Ok None), mkWorld (log w ++ notices ++ [NoFrontendFiles]) h)
     ∧ Forall is_listing_notice notices)
  ∧ ∀ fuel', fst (extract_frontend_files R fuel' repo_url w) = None
             ∨ fst (extract_frontend_files R fuel' repo_url w) = Some (Ok None).
Proof.
  intros Hfin Hno Hparse Hfuel.
  assert (nothing_found (log w) (initial_state w)) as Hinit.
  { split; [done|]. exists []. simpl. by rewrite app_nil_r. }
  split.
  - pose proof (while_terminates_root R U B owner repo_name fuel w Hfin Hfuel) as Hterm.
    pose proof (while_nothing_found R Hno (log w) owner repo_name fuel _ Hinit)
      as (Hf & notices & Hl & Hn).
    unfold extract_frontend_files, extract_body. rewrite Hparse.
    destruct (while_to_process _ _ _ _ _) as [r s]. simpl in *. subst r.
    rewrite Hf. simpl. exists notices, (history (io s)). split; [|done].
    by rewrite Hl, <- app_assoc.
  - intros fuel'.
    pose proof (while_nothing_found R Hno (log w) owner repo_name fuel' _ Hinit)
      as (Hf & _).
    pose proof (while_no_raise R fuel' owner repo_name (initial_state w)) as Hnr.
    unfold extract_frontend_files, extract_body. rewrite Hparse.
    destruct (while_to_process _ _ _ _ _) as [[[[]|e]|] s]; simpl in *.
    + rewrite Hf. by right.
    + by destruct (Hnr e).
    + by left.
Qed.

(** ** One entry of a listing *)

Section Entries.

Variable R : remote.

Lemma get_file_content_success d w resp :
  R (history w) (mkRequest d []) = inr resp → status_code resp = 200%Z →
  get_file_content R d w
  = (Ok (text resp), mkWorld (log w) (history w ++ [mkRequest d []])).
Proof.
  intros HR Hst. unfold get_file_content, requests_get. unfold_M.
  rewrite HR. by rewrite decide_False by (by intros ?).
Qed.

Lemma process_matching_file it s name :
  it !! "type" = Some "file" → it !! "name" = Some name →
  PyStr.path_suffix name ∈ frontend_extensions →
  process_item R it s
  = try_except (fetch_and_record R it)
      (fun e => p ← getitem it "path"; lift_io (emit (CouldntFetch p e))) s.
Proof.
  intros Hty Hn Hsfx. unfold process_item.
  unfold mbind, M_bind, bind, getitem at 1. rewrite Hty. unfold ret at 1.
  cbv beta iota. rewrite decide_False by done. rewrite decide_True by done.
  unfold mbind, M_bind, bind, getitem at 1. rewrite Hn. unfold ret at 1.
  cbv beta iota. by rewrite decide_True by done.
Qed.

End Entries.

(** C6.  When the content fetch of a matching file raises, the handler of
    line 74 gives the warning for that file and nothing else changes: no
    record is appended, the queue and the records found so far stay, and the
    [for] loop goes on with the entries after it. *)
Theorem C6_failed_fetch_no_record
    (R : remote) (it : item) (rest : list item) (s : state)
    (p name d : string) (e : exn) (w1 : world) :
  it !! "type" = Some "file" →
  it !! "path" = Some p →
  it !! "name" = Some name →
  it !! "download_url" = Some d →
  PyStr.path_suffix name ∈ frontend_extensions →
  get_file_content R d (io s) = (Raise e, w1) →
  let s1 := mkState (to_process s) (processed_paths s) (frontend_files s)
              (mkWorld (log (io s) ++ [CouldntFetch p e])
                       (history (io s) ++ [mkRequest d []])) in
  process_item R it s = (Ok tt, s1)
  ∧ for_each (it :: rest) (process_item R) s = for_each rest (process_item R) s1.
Proof.
  intros Hty Hp Hn Hd Hsfx Hget s1.
  assert (process_item R it s = (Ok tt, s1)) as Hpi.
  { rewrite (process_matching_file R it s name Hty Hn Hsfx).
    unfold try_except, fetch_and_record.
    unfold mbind, M_bind, bind, getitem, lift_io. rewrite Hd, Hp.
    unfold ret at 1. cbv beta iota.
    pose proof (get_file_content_world R d (io s)) as Hw.
    rewrite Hget in *. simpl in Hw. subst w1. by unfold_M. }
  split; [done|].
  cbn [for_each]. unfold mbind, M_bind, bind. by rewrite Hpi.
Qed.

Lemma C6_failed_fetch_no_record_witness :
  for_each [file_item "a.js" "a.js" "https://raw/a.js";
            file_item "src/app.js" "app.js" raw_app_js]
    (process_item (example_remote "let x = 1;")) (mkState [] ∅ [] world0)
  = (Ok tt,
     mkState [] ∅ [mkFile "src/app.js" "let x = 1;" ".js"]
       (mkWorld [CouldntFetch "a.js" (FetchContentError 404); Found "src/app.js"]
                [mkRequest "https://raw/a.js" []; mkRequest raw_app_js []])).
Proof.
  rewrite (proj2 (C6_failed_fetch_no_record (example_remote "let x = 1;")
            (file_item "a.js" "a.js" "https://raw/a.js")
            [file_item "src/app.js" "app.js" raw_app_js]
            (mkState [] ∅ [] world0) "a.js" "a.js" "https://raw/a.js"
            (FetchContentError 404) (mkWorld [] [mkRequest "https://raw/a.js" []])
            eq_refl eq_refl eq_refl eq_refl
            ltac:(vm_compute; apply list_elem_of_In; simpl; tauto) eq_refl)).
  by vm_compute.
Defined.

(** C8.  A listing response that is a single object is handled as the list
    of that one object: the visit of a path answered with the object [o] is,
    step for step, the visit of a path answered with the array [[o]], namely
    the per-entry code run on [o] under the handler of line 77. *)
Theorem C8_single_object_as_one_element_list
    (R : remote) (owner repo_name current_path : string) (s : state)
    (o : item) (w1 : world) :
  normalize (JObject o) = normalize (JArray [o])
  ∧ ∀ contents, contents = JObject o ∨ contents = JArray [o] →
      get_repo_contents R owner repo_name current_path (io s) = (Ok contents, w1) →
      visit R owner repo_name current_path s
      = try_except (process_item R o)
          (fun e => lift_io (emit (ErrorProcessing current_path e)))
          (mkState (to_process s) (processed_paths s) (frontend_files s) w1).
Proof.
  split; [done|].
  intros contents Hc Hget. unfold visit, list_directory.
  unfold try_except. unfold mbind, M_bind, bind, lift_io at 1.
  rewrite Hget. cbv beta iota.
  assert (normalize contents = [o]) as -> by (by destruct Hc as [-> | ->]).
  cbn [for_each]. unfold mbind, M_bind, bind.
  destruct (process_item R o _) as [[[]|e] s']; done.
Qed.

Lemma C8_single_object_as_one_element_list_witness :
  visit (fun _ _ => inr (mkResponse 200 (Some (JObject (dir_item "src" "src"))) ""))
    "acme" "widgets" "src" (mkState [] {["src"]} [] world0)
  = (Ok tt, mkState [("src", [])] {["src"]} []
              (mkWorld [] [listing_request "acme" "widgets" "src"])).
Proof.
  rewrite (proj2 (C8_single_object_as_one_element_list
            (fun _ _ => inr (mkResponse 200 (Some (JObject (dir_item "src" "src"))) ""))
            "acme" "widgets" "src" (mkState [] {["src"]} [] world0)
            (dir_item "src" "src")
            (mkWorld [] [listing_request "acme" "widgets" "src"]))
            (JObject (dir_item "src" "src")) (or_introl eq_refl) eq_refl).
  by vm_compute.
Defined.

(** ** Two walks side by side *)

Section Simulation.

Variables R1 R2 : remote.

(** [related h1 h2]: after the histories [h1] and [h2] the two remotes answer
    every content fetch alike, and this stays so when both walks send the
    same request. *)
Variable related : list request → list request → Prop.
Hypothesis related_content :
  ∀ h1 h2 q, related h1 h2 → is_content q → R1 h1 q = R2 h2 q.
Hypothesis related_step :
  ∀ h1 h2 q, related h1 h2 → related (h1 ++ [q]) (h2 ++ [q]).

Lemma get_file_content_sim d w1 w2 :
  related (history w1) (history w2) →
  fst (get_file_content R1 d w1) = fst (get_file_content R2 d w2)
  ∧ related (history (snd (get_file_content R1 d w1)))
            (history (snd (get_file_content R2 d w2))).
Proof.
  intros Hrel. split.
  - unfold get_file_content, requests_get. unfold_M.
    rewrite (related_content _ _ (mkRequest d []) Hrel) by done.
    destruct (R2 _ _) as [e|resp]; [done|]. by case_decide.
  - rewrite !get_file_content_world. simpl. by apply related_step.
Qed.

Lemma fetch_and_record_sim it s1 s2 r1 s1' r2 s2' :
  sim related s1 s2 →
  fetch_and_record R1 it s1 = (r1, s1') → fetch_and_record R2 it s2 = (r2, s2') →
  r1 = r2 ∧ sim related s1' s2'.
Proof.
  intros [(Hq & Hp & Hf) Hrel]. unfold fetch_and_record. unfold_M.
  destruct (it !! "download_url") as [d|]; cbv beta iota;
    [|by intros [= <- <-] [= <- <-]].
  destruct (get_file_content_sim d (io s1) (io s2) Hrel) as [Hr Hrel'].
  destruct (get_file_content R1 d (io s1)) as [r w1'].
  destruct (get_file_content R2 d (io s2)) as [r' w2']. simpl in Hr, Hrel'. subst r'.
  destruct r as [c|e]; cbv beta iota; [|by intros [= <- <-] [= <- <-]].
  destruct (it !! "path") as [p|]; cbv beta iota; [|by intros [= <- <-] [= <- <-]].
  destruct (it !! "name") as [n|]; cbv beta iota; [|by intros [= <- <-] [= <- <-]].
  intros [= <- <-] [= <- <-]. simpl. split; [done|].
  split; [|done]. unfold same_locals; simpl. by rewrite Hq, Hp, Hf.
Qed.

Lemma process_item_sim it s1 s2 r1 s1' r2 s2' :
  sim related s1 s2 →
  process_item R1 it s1 = (r1, s1') → process_item R2 it s2 = (r2, s2') →
  r1 = r2 ∧ sim related s1' s2'.
Proof.
  intros Hsim. pose proof Hsim as [(Hq & Hp & Hf) Hrel]. unfold process_item.
  unfold_M.
  destruct (it !! "type") as [ty|]; cbv beta iota;
    [|by intros [= <- <-] [= <- <-]].
  case_decide.
  - destruct (it !! "path"); cbv beta iota; intros [= <- <-] [= <- <-];
      [|done]. split; [done|]. split; [|done].
    unfold same_locals; simpl. by rewrite Hq, Hp, Hf.
  - case_decide; [|by intros [= <- <-] [= <- <-]].
    destruct (it !! "name") as [n|]; cbv beta iota;
      [|by intros [= <- <-] [= <- <-]].
    case_decide; [|by intros [= <- <-] [= <- <-]].
    destruct (fetch_and_record R1 it s1) as [ra sa] eqn:Hfr1.
    destruct (fetch_and_record R2 it s2) as [rb sb] eqn:Hfr2.
    destruct (fetch_and_record_sim _ _ _ _ _ _ _ Hsim Hfr1 Hfr2)
      as [<- [(Hq' & Hp' & Hf') Hrel']].
    destruct ra as [[]|e]; [by intros [= <- <-] [= <- <-]|].
    destruct (it !! "path"); cbv beta iota; intros [= <- <-] [= <- <-];
      (split; [done|]); (split; [|done]); unfold same_locals; simpl; done.
Qed.

Lemma for_each_sim l s1 s2 r1 s1' r2 s2' :
  sim related s1 s2 →
  for_each l (process_item R1) s1 = (r1, s1') →
  for_each l (process_item R2) s2 = (r2, s2') →
  r1 = r2 ∧ sim related s1' s2'.
Proof.
  revert s1 s2. induction l as [|it l IH]; intros s1 s2 Hsim; simpl.
  - unfold_M. by intros [= <- <-] [= <- <-].
  - unfold mbind, M_bind, bind.
    destruct (process_item R1 it s1) as [ra sa] eqn:Hpi1.
    destruct (process_item R2 it s2) as [rb sb] eqn:Hpi2.
    destruct (process_item_sim _ _ _ _ _ _ _ Hsim Hpi1 Hpi2) as [<- Hsim'].
    destruct ra as [[]|e]; [by apply IH|by intros [= <- <-] [= <- <-]].
Qed.

(** When the visits of the two walks keep their states related, so do the
    loops, which stop together. *)
Lemma while_sim owner repo :
  (∀ p s1 s2, sim related s1 s2 →
     sim related (snd (visit R1 owner repo p s1)) (snd (visit R2 owner repo p s2))) →
  ∀ fuel s1 s2, sim related s1 s2 →
    fst (while_to_process R1 fuel owner repo s1)
    = fst (while_to_process R2 fuel owner repo s2)
    ∧ sim related (snd (while_to_process R1 fuel owner repo s1))
          (snd (while_to_process R2 fuel owner repo s2)).
Proof.
  intros Hvisit fuel. induction fuel as [|fuel IH]; intros s1 s2 Hsim;
    pose proof Hsim as [(Hq & Hp & Hf) Hrel]; simpl; rewrite <- Hq.
  - by destruct (to_process s1) as [|[p fs] rest].
  - destruct (to_process s1) as [|[p fs] rest]; [done|].
    assert (sim related (snd (iteration R1 owner repo p rest s1))
                (snd (iteration R2 owner repo p rest s2))) as Hsim'.
    { unfold iteration. rewrite <- Hp. case_decide; simpl.
      - split; [|done]. unfold same_locals; simpl. by rewrite Hf.
      - apply Hvisit. split; [|done]. unfold same_locals; simpl. by rewrite Hf. }
    pose proof (iteration_ok R1 owner repo p rest s1) as Hok1.
    pose proof (iteration_ok R2 owner repo p rest s2) as Hok2.
    destruct (iteration R1 owner repo p rest s1) as [[[]|?] sa]; [|done].
    destruct (iteration R2 owner repo p rest s2) as [[[]|?] sb]; [|done].
    by apply IH.
Qed.

(** Visits whose listings come back alike keep the states related. *)
Lemma visit_sim owner repo p s1 s2 :
  sim related s1 s2 →
  fst (get_repo_contents R1 owner repo p (io s1))
  = fst (get_repo_contents R2 owner repo p (io s2)) →
  sim related (snd (visit R1 owner repo p s1)) (snd (visit R2 owner repo p s2)).
Proof.
  intros [(Hq & Hp & Hf) Hrel] Hget. unfold visit, try_except, list_directory.
  unfold mbind, M_bind, bind, lift_io.
  pose proof (get_repo_contents_world R1 owner repo p (io s1)) as Hw1.
  pose proof (get_repo_contents_world R2 owner repo p (io s2)) as Hw2.
  destruct (get_repo_contents R1 owner repo p (io s1)) as [r w1'].
  destruct (get_repo_contents R2 owner repo p (io s2)) as [r' w2'].
  simpl in Hget, Hw1, Hw2. subst r' w1' w2'.
  set (sa := mkState (to_process s1) _ _ _). set (sb := mkState (to_process s2) _ _ _).
  assert (sim related sa sb) as Hsim.
  { split; [done|]. simpl. by apply related_step. }
  destruct r as [j|e]; cbv beta iota.
  - destruct (for_each (normalize j) (process_item R1) sa) as [ra sa'] eqn:Hfe1.
    destruct (for_each (normalize j) (process_item R2) sb) as [rb sb'] eqn:Hfe2.
    destruct (for_each_sim _ _ _ _ _ _ _ Hsim Hfe1 Hfe2) as [<- Hsim'].
    destruct ra as [[]|e]; [done|]. unfold_M. simpl.
    destruct Hsim' as [? ?]. by split.
  - unfold_M. simpl. destruct Hsim as [? ?]. by split.
Qed.

Lemma extract_sim fuel repo_url w1 w2 :
  (∀ owner repo p s1 s2, sim related s1 s2 →
     sim related (snd (visit R1 owner repo p s1)) (snd (visit R2 owner repo p s2))) →
  related (history w1) (history w2) →
  fst (extract_frontend_files R1 fuel repo_url w1)
  = fst (extract_frontend_files R2 fuel repo_url w2).
Proof.
  intros Hvisit Hrel. unfold extract_frontend_files, extract_body.
  destruct (parse_repo_url repo_url) as [[owner repo]|e] eqn:Hparse; [|done].
  assert (sim related (initial_state w1) (initial_state w2)) as Hsim by done.
  destruct (while_sim owner repo (Hvisit owner repo) fuel _ _ Hsim)
    as [Hfst [(_ & _ & Hf) _]].
  destruct (while_to_process R1 _ _ _ _) as [r1 s1].
  destruct (while_to_process R2 _ _ _ _) as [r2 s2]. simpl in *. subst r2.
  rewrite <- Hf. destruct r1 as [[[]|e]|]; try done.
  by destruct (frontend_files s1).
Qed.

End Simulation.

(** ** Re-running against an unchanged remote *)

Lemma get_repo_contents_same R1 R2 owner repo p w1 w2 :
  R1 (history w1) (listing_request owner repo p)
  = R2 (history w2) (listing_request owner repo p) →
  fst (get_repo_contents R1 owner repo p w1)
  = fst (get_repo_contents R2 owner repo p w2).
Proof.
  intros HR. unfold get_repo_contents, requests_get, response_json. unfold_M.
  fold (listing_request owner repo p). rewrite HR.
  destruct (R2 _ _) as [e|resp]; [done|].
  case_decide; destruct (json_body resp) as [[o|l]|]; done.
Qed.

(** C9.  The value returned is a function of the URL and of the answers of
    the remote alone: two runs that receive the same answers to the same
    requests, whatever was asked or logged before them, return the same
    records in the same order (or both return [None], or both are still
    running after [fuel] passes).  With [R1 = R2] this is a second run
    against a remote that has not changed. *)
Theorem C9_same_answers_same_records
    (R1 R2 : remote) fuel repo_url (w1 w2 : world) :
  (∀ h1 h2 q, R1 h1 q = R2 h2 q) →
  fst (extract_frontend_files R1 fuel repo_url w1)
  = fst (extract_frontend_files R2 fuel repo_url w2).
Proof.
  intros Hsame.
  apply (extract_sim R1 R2 (λ _ _, True)); [|done].
  intros owner repo p s1 s2 Hsim.
  apply visit_sim; [by intros; apply Hsame|done|done|].
  apply get_repo_contents_same, Hsame.
Qed.

Lemma C9_same_answers_same_records_witness :
  fst (extract_frontend_files (example_remote "let x = 1;") 3
         "https://github.com/acme/widgets" world0)
  = fst (extract_frontend_files (example_remote "let x = 1;") 3
           "https://github.com/acme/widgets"
           (snd (extract_frontend_files (example_remote "let x = 1;") 3
                   "https://github.com/acme/widgets" world0))).
Proof.
  apply (C9_same_answers_same_records
           (example_remote "let x = 1;") (example_remote "let x = 1;")).
  intros h1 h2 q. reflexivity.
Defined.

(** ** A listing that cannot be fetched *)

Section ListingFailure.

Variable R : remote.

Lemma failed_listings_as_empty_get owner repo p w :
  fst (get_repo_contents (failed_listings_as_empty R) owner repo p w)
  = match fst (get_repo_contents R owner repo p w) with
    | Ok j => Ok j
    | Raise _ => Ok (JArray [])
    end.
Proof.
  unfold get_repo_contents, requests_get, response_json, failed_listings_as_empty.
  unfold_M. rewrite decide_True by done.
  destruct (R _ _) as [e|resp]; simpl; [done|].
  destruct (decide (status_code resp = 200%Z)) as [Hst|Hst].
  - destruct (json_body resp) as [j|] eqn:Hj.
    + rewrite decide_True by (split; [done|by eexists]). simpl.
      rewrite decide_False by (by intros ?). rewrite Hj.
      by rewrite decide_False by (by intros ?).
    + rewrite decide_False by (by intros [_ []]). simpl.
      by rewrite decide_False by (by intros ?).
  - rewrite decide_False by (by intros [? _]). simpl.
    rewrite decide_True by done.
    by destruct (json_body resp) as [[o|l]|].
Qed.

(** When the listing fails, the pass records the failure for that path and
    leaves the queue behind it and the records untouched. *)
Lemma iteration_listing_failure owner repo p rest s e w1 :
  p ∉ processed_paths s →
  get_repo_contents R owner repo p (io s) = (Raise e, w1) →
  iteration R owner repo p rest s
  = (Ok tt,
     mkState rest ({[p]} ∪ processed_paths s) (frontend_files s)
       (mkWorld (log (io s) ++ [ErrorProcessing p e])
                (history (io s) ++ [listing_request owner repo p]))).
Proof.
  intros Hp Hget. unfold iteration. rewrite decide_False by done.
  unfold visit, try_except, list_directory.
  unfold mbind, M_bind, bind, lift_io. simpl.
  pose proof (get_repo_contents_world R owner repo p (io s)) as Hw.
  rewrite Hget in *. simpl in Hw. subst w1. by unfold_M.
Qed.

Lemma failed_listings_as_empty_visit owner repo p s1 s2 :
  sim eq s1 s2 →
  sim eq (snd (visit R owner repo p s1))
         (snd (visit (failed_listings_as_empty R) owner repo p s2)).
Proof.
  intros Hsim. pose proof Hsim as [(Hq & Hp & Hf) Hh].
  destruct (get_repo_contents R owner repo p (io s1)) as [[j|e] w1] eqn:Hget.
  - apply visit_sim; try done.
    + intros h1 h2 q -> Hc. unfold failed_listings_as_empty.
      by rewrite decide_False by (by intros ?).
    + by intros h1 h2 q ->.
    + rewrite failed_listings_as_empty_get.
      assert (∀ w w', history w = history w' →
                fst (get_repo_contents R owner repo p w)
                = fst (get_repo_contents R owner repo p w')) as Hindep.
      { intros w w' Hww. by apply get_repo_contents_same; rewrite Hww. }
      rewrite (Hindep (io s2) (io s1)) by done. by rewrite Hget.
  - unfold visit, try_except, list_directory.
    unfold mbind, M_bind, bind, lift_io.
    pose proof (get_repo_contents_world R owner repo p (io s1)) as Hw1.
    pose proof (get_repo_contents_world (failed_listings_as_empty R) owner repo p (io s2))
      as Hw2.
    pose proof (failed_listings_as_empty_get owner repo p (io s2)) as Hfst.
    assert (fst (get_repo_contents R owner repo p (io s2))
            = fst (get_repo_contents R owner repo p (io s1))) as Hsame
      by (by apply get_repo_contents_same; rewrite Hh).
    rewrite Hsame, Hget in Hfst. rewrite Hget in *. simpl in Hw1, Hfst. subst w1.
    destruct (get_repo_contents (failed_listings_as_empty R) owner repo p (io s2))
      as [r2 w2]. simpl in Hw2, Hfst. subst r2 w2.
    unfold_M. simpl. split; [done|]. simpl. by rewrite Hh.
Qed.

End ListingFailure.

(** C5.  A pass whose listing fetch raises gives the warning for its path,
    marks the path visited and hands the queue and the records on unchanged:
    the loop continues.  The value the call returns is the one it returns
    when every failed listing is the listing of an empty directory instead,
    so a failure costs what that directory would have listed and nothing of
    any other directory. *)
Theorem C5_listing_failure_is_local (R : remote) fuel repo_url w :
  (∀ owner repo_name p rest s e w1,
     p ∉ processed_paths s →
     get_repo_contents R owner repo_name p (io s) = (Raise e, w1) →
     iteration R owner repo_name p rest s
     = (Ok tt,
        mkState rest ({[p]} ∪ processed_paths s) (frontend_files s)
          (mkWorld (log (io s) ++ [ErrorProcessing p e])
                   (history (io s) ++ [listing_request owner repo_name p]))))
  ∧ fst (extract_frontend_files R fuel repo_url w)
    = fst (extract_frontend_files (failed_listings_as_empty R) fuel repo_url w).
Proof.
  split.
  - intros. by apply iteration_listing_failure with w1.
  - apply (extract_sim R (failed_listings_as_empty R) eq); [|done].
    intros owner repo p s1 s2. apply failed_listings_as_empty_visit.
Qed.

Lemma C5_listing_failure_is_local_witness :
  extract_frontend_files sibling_remote 4 "https://github.com/acme/widgets" world0
  = (Some (Ok (Some [mkFile "b/x.js" "x()" ".js"])),
     mkWorld [ErrorProcessing "a" JSONDecodeError; Found "b/x.js"]
       [listing_request "acme" "widgets" ""; listing_request "acme" "widgets" "a";
        listing_request "acme" "widgets" "b"; mkRequest "https://raw/b/x.js" []])
  ∧ iteration sibling_remote "acme" "widgets" "a" [("b", [])]
      (mkState [("a", []); ("b", [])] {[""]} []
         (mkWorld [] [listing_request "acme" "widgets" ""]))
    = (Ok tt,
       mkState [("b", [])] ({["a"]} ∪ {[""]}) []
         (mkWorld [ErrorProcessing "a" JSONDecodeError]
            [listing_request "acme" "widgets" ""; listing_request "acme" "widgets" "a"])).
Proof.
  split; [by vm_compute|].
  pose proof (proj1 (C5_listing_failure_is_local sibling_remote 4
                  "https://github.com/acme/widgets" world0)
           "acme" "widgets" "a" [("b", [])]
           (mkState [("a", []); ("b", [])] {[""]} []
              (mkWorld [] [listing_request "acme" "widgets" ""]))
           JSONDecodeError
           (mkWorld [] [listing_request "acme" "widgets" "";
                        listing_request "acme" "widgets" "a"])) as H.
  apply H; by vm_compute.
Defined.

(** ** The order of the walk *)

Lemma found_paths_app l1 l2 :
  found_paths (l1 ++ l2) = found_paths l1 ++ found_paths l2.
Proof. unfold found_paths. apply omap_app. Qed.

Lemma announced_refl s : announced s s.
Proof. exists []. by rewrite !app_nil_r. Qed.

Lemma announced_trans s1 s2 s3 : announced s1 s2 → announced s2 s3 → announced s1 s3.
Proof.
  intros (fs1 & Hf1 & Hl1) (fs2 & Hf2 & Hl2). exists (fs1 ++ fs2).
  rewrite Hf2, Hf1, Hl2, Hl1, fmap_app. by rewrite !app_assoc.
Qed.

(** A change of the log by a notice that is no announcement, or of the
    queue, the visited set or the history. *)
Lemma announced_other s s' :
  frontend_files s' = frontend_files s →
  found_paths (log (io s')) = found_paths (log (io s)) →
  announced s s'.
Proof. intros Hf Hl. exists []. by rewrite Hf, Hl, !app_nil_r. Qed.

Section Order.

Variable R : remote.

Lemma fetch_and_record_announced it s :
  announced s (snd (fetch_and_record R it s)).
Proof.
  unfold fetch_and_record. unfold_M.
  destruct (it !! "download_url") as [d|]; cbv beta iota; [|apply announced_refl].
  pose proof (get_file_content_world R d (io s)) as Hw.
  destruct (get_file_content R d (io s)) as [[c|e] w]; simpl in Hw; subst w;
    cbv beta iota; [|by apply announced_other].
  destruct (it !! "path") as [p|]; cbv beta iota; [|by apply announced_other].
  destruct (it !! "name") as [n|]; cbv beta iota; [|by apply announced_other].
  exists [mkFile p c (PyStr.path_suffix n)]. simpl. split; [done|].
  by rewrite found_paths_app.
Qed.

Lemma process_item_announced it s : announced s (snd (process_item R it s)).
Proof.
  unfold process_item.
  unfold mbind, M_bind, bind, getitem at 1.
  destruct (it !! "type") as [ty|]; cbv beta iota; [|apply announced_refl].
  unfold ret at 1. cbv beta iota. case_decide.
  - unfold_M. destruct (it !! "path"); cbv beta iota;
      [by apply announced_other|apply announced_refl].
  - case_decide; [|apply announced_refl].
    unfold mbind, M_bind, bind, getitem at 1.
    destruct (it !! "name") as [n|]; cbv beta iota; [|apply announced_refl].
    unfold ret at 1. cbv beta iota.
    case_decide; [|apply announced_refl].
    unfold try_except.
    pose proof (fetch_and_record_announced it s) as Ha.
    destruct (fetch_and_record R it s) as [[[]|e] s1]; simpl in Ha; [done|].
    unfold_M. destruct (it !! "path"); cbv beta iota; [|done].
    eapply announced_trans; [exact Ha|]. apply announced_other; simpl; [done|].
    rewrite found_paths_app. simpl. by rewrite app_nil_r.
Qed.

Lemma for_each_announced l s : announced s (snd (for_each l (process_item R) s)).
Proof.
  revert s. induction l as [|it l IH]; intros s; simpl.
  - apply announced_refl.
  - unfold mbind, M_bind, bind.
    pose proof (process_item_announced it s) as Ha.
    destruct (process_item R it s) as [[[]|e] s1]; simpl in Ha; [|done].
    eapply announced_trans; [exact Ha|apply IH].
Qed.

Lemma visit_announced owner repo p s : announced s (snd (visit R owner repo p s)).
Proof.
  unfold visit, try_except, list_directory.
  unfold mbind, M_bind, bind, lift_io.
  pose proof (get_repo_contents_world R owner repo p (io s)) as Hw.
  destruct (get_repo_contents R owner repo p (io s)) as [[j|e] w];
    simpl in Hw; subst w; cbv beta iota.
  - set (s1 := mkState _ _ _ _).
    assert (announced s s1) as H1 by (by apply announced_other).
    pose proof (for_each_announced (normalize j) s1) as Ha.
    destruct (for_each (normalize j) (process_item R) s1) as [[[]|e] s2];
      simpl in Ha.
    + simpl. eapply announced_trans; [exact H1|exact Ha].
    + unfold_M. simpl. eapply announced_trans; [exact H1|].
      eapply announced_trans; [exact Ha|]. apply announced_other; simpl; [done|].
      rewrite found_paths_app. simpl. by rewrite app_nil_r.
  - unfold_M. simpl. apply announced_other; simpl; [done|].
    rewrite found_paths_app. simpl. by rewrite app_nil_r.
Qed.

Lemma iteration_announced owner repo p rest s :
  announced s (snd (iteration R owner repo p rest s)).
Proof.
  unfold iteration. case_decide.
  - by apply announced_other.
  - eapply announced_trans; [|apply visit_announced]. by apply announced_other.
Qed.

Lemma while_announced owner repo fuel s :
  announced s (snd (while_to_process R fuel owner repo s)).
Proof.
  apply (while_invariant R (announced s)); [|apply announced_refl].
  intros p fs rest s0 _ Ha. eapply announced_trans; [exact Ha|].
  apply iteration_announced.
Qed.

(** A pass takes the head of the queue and appends behind the rest. *)
Lemma iteration_queue owner repo p rest s :
  ∃ added, to_process (snd (iteration R owner repo p rest s)) = rest ++ added.
Proof.
  unfold iteration. case_decide; simpl.
  - exists []. by rewrite app_nil_r.
  - destruct (visit R _ _ _ _) as [r s'] eqn:Hv.
    by apply visit_effects in Hv as (_ & Hq & _).
Qed.

Lemma while_fifo owner repo fuel s :
  dequeued R fuel owner repo s
    ++ (fst <$> to_process (snd (while_to_process R fuel owner repo s)))
  = (fst <$> to_process s) ++ enqueued R fuel owner repo s.
Proof.
  revert s. induction fuel as [|fuel IH]; intros s; simpl.
  - destruct (to_process s) as [|[p fs] rest] eqn:Hq; simpl;
      by rewrite Hq, ?app_nil_r.
  - destruct (to_process s) as [|[p fs] rest] eqn:Hq; simpl; [by rewrite Hq|].
    destruct (iteration_queue owner repo p rest s) as [added Ha].
    pose proof (iteration_ok R owner repo p rest s) as Hok.
    destruct (iteration R owner repo p rest s) as [[[]|e] s']; simpl in *; [|done].
    rewrite IH, Ha, drop_app_length, fmap_app. by rewrite app_assoc.
Qed.

End Order.

(** The walk of [bfs_remote] is breadth first: [b/y.js] is found before
    [a/c/z.js], and the paths leave the queue level by level. *)
Example bfs_remote_order :
  fst (extract_frontend_files bfs_remote 10 "https://github.com/acme/widgets" world0)
  = Some (Ok (Some [mkFile "r.js" "raw/r.js" ".js";
                    mkFile "a/x.js" "raw/a/x.js" ".js";
                    mkFile "b/y.js" "raw/b/y.js" ".js";
                    mkFile "a/c/z.js" "raw/a/c/z.js" ".js"]))
  ∧ dequeued bfs_remote 10 "acme" "widgets" (initial_state world0)
    = [""; "a"; "b"; "a/c"]
  ∧ enqueued bfs_remote 10 "acme" "widgets" (initial_state world0)
    = ["a"; "b"; "a/c"].
Proof. by vm_compute. Qed.

(** C7.  The queue is first in, first out: a pass takes the path at the
    head and appends what it finds behind everything already queued, so the
    paths leave the queue in the order in which they entered it (those
    taken out, then those still queued, are those queued at the start, then
    those appended, in the order of appending).  The records are only
    appended, each one announced as it is found, and the list returned is the
    list of records in the order of these announcements. *)
Theorem C7_fifo_queue_discovery_order
    (R : remote) fuel owner repo_name (s : state) repo_url (w : world) :
  dequeued R fuel owner repo_name s
    ++ (fst <$> to_process (snd (while_to_process R fuel owner repo_name s)))
  = (fst <$> to_process s) ++ enqueued R fuel owner repo_name s
  ∧ (∀ p rest, ∃ added,
       to_process (snd (iteration R owner repo_name p rest s)) = rest ++ added)
  ∧ announced s (snd (while_to_process R fuel owner repo_name s))
  ∧ match fst (extract_frontend_files R fuel repo_url w) with
    | Some (Ok (Some fs)) =>
        found_paths (log (snd (extract_frontend_files R fuel repo_url w)))
        = found_paths (log w) ++ (path <$> fs)
    | _ => True
    end.
Proof.
  split_and!.
  - apply while_fifo.
  - intros p rest. apply iteration_queue.
  - apply while_announced.
  - unfold extract_frontend_files, extract_body.
    destruct (parse_repo_url repo_url) as [[o r]|e]; [|done].
    pose proof (while_announced R o r fuel (initial_state w)) as (fs & Hf & Hl).
    destruct (while_to_process _ _ _ _ _) as [[[[]|e]|] s']; simpl in *; try done.
    destruct (frontend_files s') as [|f fs'] eqn:Hfs; simpl; [done|].
    by rewrite Hl, <- Hf.
Qed.

(** ** Concrete runs *)

Ltac docs_cases HR :=
  unfold docs_remote in HR; repeat case_decide; simplify_eq; simpl in *;
  simplify_eq; simpl in *.

Lemma docs_remote_finite : finite_tree docs_remote {["docs"]} 2.
Proof.
  split.
  - intros h q resp j _ HR Hst Hj. docs_cases HR; lia.
  - intros h q resp j it p _ HR Hst Hj Hit Hty Hp. docs_cases HR.
    + apply list_elem_of_In in Hit. simpl in Hit.
      destruct Hit as [<-|[<-|[]]]; vm_compute in Hty, Hp; simplify_eq.
      by apply elem_of_singleton.
    + apply list_elem_of_In in Hit. simpl in Hit.
      destruct Hit as [<-|[]]; vm_compute in Hty; simplify_eq.
Qed.

Lemma docs_remote_no_match : no_matching_files docs_remote.
Proof.
  intros h q resp j it name _ HR Hst Hj Hit Hty Hn Hsfx. docs_cases HR.
  - apply list_elem_of_In in Hit. simpl in Hit.
    destruct Hit as [<-|[<-|[]]]; vm_compute in Hty, Hn; simplify_eq.
    apply list_elem_of_In in Hsfx. vm_compute in Hsfx.
    repeat (destruct Hsfx as [Hsfx|Hsfx]; [discriminate|]). done.
  - apply list_elem_of_In in Hit. simpl in Hit.
    destruct Hit as [<-|[]]; vm_compute in Hty, Hn; simplify_eq.
    apply list_elem_of_In in Hsfx. vm_compute in Hsfx.
    repeat (destruct Hsfx as [Hsfx|Hsfx]; [discriminate|]). done.
Qed.

Lemma C3_no_matching_files_returns_none_witness :
  fst (extract_frontend_files docs_remote 5 "https://github.com/acme/widgets" world0)
  = Some (Ok None).
Proof.
  destruct (C3_no_matching_files_returns_none docs_remote {["docs"]} 2 5
              "https://github.com/acme/widgets" "acme" "widgets" world0
              docs_remote_finite docs_remote_no_match eq_refl)
    as [(notices & h & Heq & _) _].
  - vm_compute. lia.
  - by rewrite Heq.
Defined.

Lemma C1_each_path_listed_at_most_once_witness :
  iteration bfs_remote "acme" "widgets" "a" [("b", [])]
    (mkState [("a", []); ("b", [])] {[""; "a"]} [] world0)
  = (Ok tt, mkState [("b", [])] {[""; "a"]} [] world0).
Proof.
  pose proof (proj2 (C1_each_path_listed_at_most_once bfs_remote 10
                  "https://github.com/acme/widgets" world0)
           "acme" "widgets" "a" [("b", [])]
           (mkState [("a", []); ("b", [])] {[""; "a"]} [] world0)) as H.
  apply H. simpl. apply elem_of_union_r. by apply elem_of_singleton.
Defined.

Example cyclic_remote_listed_once :
  extract_frontend_files cyclic_remote 10 "https://github.com/acme/widgets" world0
  = (Some (Ok None),
     mkWorld [NoFrontendFiles]
       [listing_request "acme" "widgets" ""; listing_request "acme" "widgets" "loop"]).
Proof. by vm_compute. Qed.

(** * Further properties of the walk *)

(** ** Where the records come from *)

Lemma fetched_mono R h more f : fetched R h f → fetched R (h ++ more) f.
Proof.
  intros (h1 & h2 & d & resp & -> & HR & Hst & Hc).
  exists h1, (h2 ++ more), d, resp. by rewrite <- app_assoc.
Qed.

Lemma sound_records_mono R s s' :
  frontend_files s' = frontend_files s →
  (∃ more, history (io s') = history (io s) ++ more) →
  sound_records R s → sound_records R s'.
Proof.
  unfold sound_records. intros -> [more ->] Hs.
  eapply Forall_impl; [exact Hs|]. intros f [? ?]. split; [done|].
  by apply fetched_mono.
Qed.

Lemma get_file_content_ok R d w c w' :
  get_file_content R d w = (Ok c, w') →
  ∃ resp, R (history w) (mkRequest d []) = inr resp
          ∧ status_code resp = 200%Z ∧ c = text resp.
Proof.
  unfold get_file_content, requests_get. unfold_M.
  destruct (R _ _) as [e|resp]; [done|].
  case_decide as Hst; [done|]. intros [= <- <-]. exists resp.
  split_and!; [done| |done].
  by destruct (decide (status_code resp = 200%Z)).
Qed.

(** What the innermost [try] does to the records: nothing, or one record
    from an entry with all its keys and a fetch answered 200. *)
Lemma fetch_and_record_record R it s r s' :
  fetch_and_record R it s = (r, s') →
  (frontend_files s' = frontend_files s
   ∧ ∃ more, history (io s') = history (io s) ++ more)
  ∨ ∃ p n d resp,
      it !! "path" = Some p ∧ it !! "name" = Some n
      ∧ it !! "download_url" = Some d
      ∧ R (history (io s)) (mkRequest d []) = inr resp
      ∧ status_code resp = 200%Z
      ∧ history (io s') = history (io s) ++ [mkRequest d []]
      ∧ frontend_files s'
        = frontend_files s ++ [mkFile p (text resp) (PyStr.path_suffix n)].
Proof.
  unfold fetch_and_record. unfold_M.
  destruct (it !! "download_url") as [d|] eqn:Hd; cbv beta iota.
  2:{ intros [= <- <-]. left. split; [done|]. exists []. by rewrite app_nil_r. }
  pose proof (get_file_content_world R d (io s)) as Hw.
  destruct (get_file_content R d (io s)) as [[c|e] w] eqn:Hget; simpl in Hw;
    cbv beta iota.
  2:{ intros [= <- <-]. left. simpl. subst w. split; [done|]. by eexists. }
  apply get_file_content_ok in Hget as (resp & HR & Hst & ->). subst w.
  destruct (it !! "path") as [p|]; cbv beta iota.
  2:{ intros [= <- <-]. left. simpl. split; [done|]. by eexists. }
  destruct (it !! "name") as [n|]; cbv beta iota.
  2:{ intros [= <- <-]. left. simpl. split; [done|]. by eexists. }
  intros [= <- <-]. right. exists p, n, d, resp. by split_and!.
Qed.

Lemma process_item_sound R it s r s' :
  process_item R it s = (r, s') → sound_records R s → sound_records R s'.
Proof.
  unfold process_item.
  unfold mbind, M_bind, bind, getitem at 1.
  destruct (it !! "type") as [ty|]; cbv beta iota;
    [|by unfold_M; intros [= <- <-]].
  unfold ret at 1. cbv beta iota. case_decide.
  - unfold_M. destruct (it !! "path"); cbv beta iota; intros [= <- <-]; [|done].
    apply sound_records_mono; simpl; [done|]. exists []. by rewrite app_nil_r.
  - case_decide; [|by unfold_M; intros [= <- <-]].
    unfold mbind, M_bind, bind, getitem at 1.
    destruct (it !! "name") as [n|] eqn:Hn; cbv beta iota;
      [|by unfold_M; intros [= <- <-]].
    unfold ret at 1. cbv beta iota.
    case_decide as Hsfx; [|by unfold_M; intros [= <- <-]].
    unfold try_except.
    destruct (fetch_and_record R it s) as [ra sa] eqn:Hfr.
    assert (sound_records R s → sound_records R sa) as Hsa.
    { apply fetch_and_record_record in Hfr
        as [[Hf Hh]|(p & n' & d & resp & Hp & Hn' & Hd & HR & Hst & Hh & Hf)].
      - by apply sound_records_mono.
      - intros Hs. unfold sound_records. rewrite Hf, Hh. apply Forall_app. split.
        + eapply Forall_impl; [exact Hs|]. intros f [? ?]. split; [done|].
          by apply fetched_mono.
        + apply Forall_singleton. simpl. split; [congruence|].
          exists (history (io s)), [], d, resp. by split_and!. }
    destruct ra as [[]|e]; [by intros [= <- <-]|].
    unfold_M. destruct (it !! "path"); cbv beta iota; intros [= <- <-]; [|done].
    intros Hs. apply Hsa in Hs. revert Hs.
    apply sound_records_mono; simpl; [done|]. exists []. by rewrite app_nil_r.
Qed.

Lemma for_each_sound R l s r s' :
  for_each l (process_item R) s = (r, s') → sound_records R s → sound_records R s'.
Proof.
  revert s. induction l as [|it l IH]; intros s; simpl.
  - unfold_M. by intros [= <- <-].
  - unfold mbind, M_bind, bind.
    destruct (process_item R it s) as [[[]|e] s1] eqn:Hpi.
    + intros Hfe Hs. eapply IH; [exact Hfe|]. by eapply process_item_sound.
    + intros [= <- <-]. by eapply process_item_sound.
Qed.

Lemma visit_sound R owner repo p s :
  sound_records R s → sound_records R (snd (visit R owner repo p s)).
Proof.
  intros Hs. unfold visit, try_except, list_directory.
  unfold mbind, M_bind, bind, lift_io.
  pose proof (get_repo_contents_world R owner repo p (io s)) as Hw.
  destruct (get_repo_contents R owner repo p (io s)) as [[j|e] w];
    simpl in Hw; subst w; cbv beta iota.
  - set (s1 := mkState _ _ _ _).
    assert (sound_records R s1) as H1.
    { revert Hs. apply sound_records_mono; simpl; [done|]. by eexists. }
    destruct (for_each (normalize j) (process_item R) s1) as [[[]|e] s2] eqn:Hfe;
      pose proof (for_each_sound _ _ _ _ _ Hfe H1) as H2; simpl; [done|].
    unfold_M. simpl. revert H2. apply sound_records_mono; simpl; [done|].
    exists []. by rewrite app_nil_r.
  - unfold_M. simpl. revert Hs. apply sound_records_mono; simpl; [done|].
    by eexists.
Qed.

Lemma while_sound R owner repo fuel s :
  sound_records R s →
  sound_records R (snd (while_to_process R fuel owner repo s)).
Proof.
  apply (while_invariant R (sound_records R)).
  intros p fs rest s0 _ Hs. unfold iteration. case_decide.
  - revert Hs. apply sound_records_mono; simpl; [done|].
    exists []. by rewrite app_nil_r.
  - apply visit_sound. revert Hs. apply sound_records_mono; simpl; [done|].
    exists []. by rewrite app_nil_r.
Qed.

Lemma extract_sound R fuel repo_url w :
  match fst (extract_frontend_files R fuel repo_url w) with
  | Some (Ok (Some fs)) =>
      Forall (λ f, type f ∈ frontend_extensions
                   ∧ fetched R (history (snd (extract_frontend_files R fuel repo_url w))) f)
             fs
  | _ => True
  end.
Proof.
  unfold extract_frontend_files, extract_body.
  destruct (parse_repo_url repo_url) as [[o r]|e]; [|done].
  pose proof (while_sound R o r fuel (initial_state w)) as Hs.
  destruct (while_to_process _ _ _ _ _) as [[[[]|e]|] s']; simpl in *; try done.
  destruct (frontend_files s') eqn:Hfs; simpl; [done|].
  rewrite <- Hfs. apply Hs. by apply Forall_nil.
Qed.

(** X1.  Every record that [extract_frontend_files] returns carries, under
    ['type'], an extension of the allow-list: whatever the remote lists,
    a file with another extension never gets into the result. *)
Theorem returned_records_have_allowed_extension (R : remote) fuel repo_url w :
  match fst (extract_frontend_files R fuel repo_url w) with
  | Some (Ok (Some fs)) => Forall (λ f, type f ∈ frontend_extensions) fs
  | _ => True
  end.
Proof.
  pose proof (extract_sound R fuel repo_url w) as H.
  destruct (fst (extract_frontend_files R fuel repo_url w)) as [[[fs|]|]|]; try done.
  eapply Forall_impl; [exact H|]. by intros f [? _].
Qed.

(** X2.  The text of every returned record is the body of an answer with
    status 200 that the remote gave to a header-less content request, and
    that request is in the history the call leaves: no text is made up, and
    none comes from an answer with another status. *)
Theorem returned_records_were_fetched (R : remote) fuel repo_url w :
  match fst (extract_frontend_files R fuel repo_url w) with
  | Some (Ok (Some fs)) =>
      Forall (fetched R (history (snd (extract_frontend_files R fuel repo_url w)))) fs
  | _ => True
  end.
Proof.
  pose proof (extract_sound R fuel repo_url w) as H.
  destruct (fst (extract_frontend_files R fuel repo_url w)) as [[[fs|]|]|]; try done.
  eapply Forall_impl; [exact H|]. by intros f [_ ?].
Qed.

(** ** Entries with missing keys *)

Lemma fetch_and_record_path R it s :
  it !! "path" = None → ∃ e, fst (fetch_and_record R it s) = Raise e.
Proof.
  intros Hp. unfold fetch_and_record. unfold_M. rewrite Hp.
  destruct (it !! "download_url") as [d|]; cbv beta iota; [|by eexists].
  destruct (get_file_content R d (io s)) as [[c|e] w]; cbv beta iota; by eexists.
Qed.

Lemma process_item_raises R it s r s' :
  process_item R it s = (r, s') →
  (malformed_entry it ↔ ∃ e, r = Raise e)
  ∧ ∀ e, r = Raise e → ∃ key, e = KeyError key ∧ it !! key = None.
Proof.
  unfold malformed_entry, process_item.
  unfold mbind, M_bind, bind, getitem at 1.
  destruct (it !! "type") as [ty|] eqn:Hty; cbv beta iota.
  2:{ unfold_M. intros [= <- <-]. split; [split; [by eexists|done]|].
      intros e [= <-]. by exists "type". }
  unfold ret at 1. cbv beta iota. case_decide.
  - unfold_M. destruct (it !! "path") eqn:Hp; cbv beta iota; intros [= <- <-].
    + split; [split; [done|by intros [e ?]]|done].
    + split; [split; [by eexists|done]|]. intros e [= <-]. by exists "path".
  - case_decide.
    2:{ unfold_M. intros [= <- <-]. split; [split; [done|by intros [e ?]]|done]. }
    unfold mbind, M_bind, bind, getitem at 1.
    destruct (it !! "name") as [n|] eqn:Hn; cbv beta iota.
    2:{ unfold_M. intros [= <- <-]. split; [split; [by eexists|done]|].
        intros e [= <-]. by exists "name". }
    unfold ret at 1. cbv beta iota. case_decide as Hsfx.
    2:{ unfold_M. intros [= <- <-].
        split; [split; [by intros [? _]|by intros [e ?]]|done]. }
    unfold try_except.
    destruct (it !! "path") as [p|] eqn:Hp.
    + destruct (fetch_and_record R it s) as [[[]|e0] s1]; unfold_M; rewrite ?Hp;
        intros [= <- <-];
        (split; [split; [by intros [_ ?]|by intros [e ?]]|done]).
    + destruct (fetch_and_record_path R it s Hp) as [e0 He0].
      destruct (fetch_and_record R it s) as [[[]|e1] s1]; simpl in He0; [done|].
      unfold_M. rewrite Hp. intros [= <- <-].
      split; [split; [by eexists|done]|]. intros e [= <-]. by exists "path".
Qed.

(** X3.  The body of the [for] loop raises exactly on the malformed entries,
    and what it raises is the [KeyError] of a key the entry lacks: a failed
    content fetch, whatever its cause, never leaves the body. *)
Theorem process_item_raises_on_missing_keys (R : remote) (it : item) (s : state) :
  (malformed_entry it ↔ ∃ e, fst (process_item R it s) = Raise e)
  ∧ ∀ e, fst (process_item R it s) = Raise e →
         ∃ key, e = KeyError key ∧ it !! key = None.
Proof.
  destruct (process_item R it s) as [r s'] eqn:Hpi.
  exact (process_item_raises R it s r s' Hpi).
Qed.

Lemma for_each_app {St A} (l1 l2 : list A) (body : A → M St unit) s :
  for_each (l1 ++ l2) body s
  = match for_each l1 body s with
    | (Ok _, s1) => for_each l2 body s1
    | (Raise e, s1) => (Raise e, s1)
    end.
Proof.
  revert s. induction l1 as [|x l1 IH]; intros s; simpl; [done|].
  unfold mbind, M_bind, bind. destruct (body x s) as [[[]|e] s1]; [apply IH|done].
Qed.

(** X4.  The [try] of line 52 encloses the whole [for] loop: when the body
    raises on an entry, the entries before it keep what they did, the notice
    of line 78 is given for the directory, and the entries after it are not
    looked at, whatever they are. *)
Theorem raising_entry_ends_the_listing
    (R : remote) (owner repo_name current_path : string) (s s1 s2 : state)
    (contents : json) (w1 : world) (before after : list item) (it : item) (e : exn) :
  get_repo_contents R owner repo_name current_path (io s) = (Ok contents, w1) →
  normalize contents = before ++ it :: after →
  for_each before (process_item R)
    (mkState (to_process s) (processed_paths s) (frontend_files s) w1) = (Ok tt, s1) →
  process_item R it s1 = (Raise e, s2) →
  visit R owner repo_name current_path s
  = (Ok tt,
     mkState (to_process s2) (processed_paths s2) (frontend_files s2)
       (mkWorld (log (io s2) ++ [ErrorProcessing current_path e]) (history (io s2)))).
Proof.
  intros Hget Hnorm Hbefore Hit. unfold visit, list_directory, try_except.
  unfold mbind, M_bind, bind, lift_io at 1. rewrite Hget. cbv beta iota.
  rewrite Hnorm, for_each_app, Hbefore. cbn [for_each].
  unfold mbind, M_bind, bind. rewrite Hit. by unfold_M.
Qed.

Lemma raising_entry_ends_the_listing_witness :
  visit broken_listing_remote "acme" "widgets" "" (mkState [] {[""]} [] world0)
  = (Ok tt,
     mkState [("a", [])] {[""]} []
       (mkWorld [ErrorProcessing "" (KeyError "type")]
                [listing_request "acme" "widgets" ""])).
Proof.
  pose proof (raising_entry_ends_the_listing broken_listing_remote
                "acme" "widgets" "" (mkState [] {[""]} [] world0)
                (mkState [("a", [])] {[""]} []
                   (mkWorld [] [listing_request "acme" "widgets" ""]))
                (mkState [("a", [])] {[""]} []
                   (mkWorld [] [listing_request "acme" "widgets" ""]))
                (JArray [dir_item "a" "a"; ∅; dir_item "b" "b"])
                (mkWorld [] [listing_request "acme" "widgets" ""])
                [dir_item "a" "a"] [dir_item "b" "b"] ∅ (KeyError "type")) as H.
  apply H; by vm_compute.
Defined.

(** ** Termination *)

Lemma while_fuel_S R owner repo fuel s r :
  fst (while_to_process R fuel owner repo s) = Some r →
  while_to_process R (S fuel) owner repo s = while_to_process R fuel owner repo s.
Proof.
  revert s. induction fuel as [|fuel IH]; intros s.
  - simpl. by destruct (to_process s) as [|[p fs] rest].
  - intros Hr. change (while_to_process R (S (S fuel)) owner repo s)
      with (match to_process s with
            | [] => (Some (Ok tt), s)
            | (p, _) :: rest =>
                match iteration R owner repo p rest s with
                | (Ok _, s') => while_to_process R (S fuel) owner repo s'
                | (Raise e, s') => (Some (Raise e), s')
                end
            end).
    simpl in Hr |- *. destruct (to_process s) as [|[p fs] rest]; [done|].
    destruct (iteration R owner repo p rest s) as [[[]|e] s']; [|done].
    by apply IH.
Qed.

Lemma while_fuel_le R owner repo fuel fuel' s r :
  (fuel ≤ fuel')%nat →
  fst (while_to_process R fuel owner repo s) = Some r →
  while_to_process R fuel' owner repo s = while_to_process R fuel owner repo s.
Proof.
  induction 1 as [|fuel' Hle IH]; [done|]. intros Hr.
  rewrite <- (IH Hr). apply (while_fuel_S _ _ _ _ _ r). by rewrite (IH Hr).
Qed.

(** X5.  On a finite tree the walk ends, cycles and repeated entries
    included: with [enough_fuel] passes the call has returned, and any
    further fuel gives the same value and the same world. *)
Theorem walk_terminates_on_finite_tree
    (R : remote) (U : gset string) (B : nat) fuel fuel' repo_url w :
  finite_tree R U B →
  (enough_fuel U B ≤ fuel)%nat → (fuel ≤ fuel')%nat →
  fst (extract_frontend_files R fuel repo_url w) ≠ None
  ∧ extract_frontend_files R fuel' repo_url w
    = extract_frontend_files R fuel repo_url w.
Proof.
  intros Hfin Hfuel Hle. unfold extract_frontend_files, extract_body.
  destruct (parse_repo_url repo_url) as [[o r]|e]; [|done].
  pose proof (while_terminates_root R U B o r fuel w Hfin Hfuel) as Hterm.
  rewrite (while_fuel_le R o r fuel fuel' _ (Ok tt) Hle Hterm).
  split; [|done].
  destruct (while_to_process R fuel o r (initial_state w)) as [[[[]|e]|] s];
    simpl in *; try done.
  by destruct (frontend_files s).
Qed.

Lemma walk_terminates_on_finite_tree_witness :
  fst (extract_frontend_files docs_remote 5 "https://github.com/acme/widgets" world0)
  ≠ None
  ∧ extract_frontend_files docs_remote 9 "https://github.com/acme/widgets" world0
    = extract_frontend_files docs_remote 5 "https://github.com/acme/widgets" world0.
Proof.
  apply (walk_terminates_on_finite_tree docs_remote {["docs"]} 2 5 9
           "https://github.com/acme/widgets" world0 docs_remote_finite);
    vm_compute; lia.
Defined.

(** ** How many listings are asked for *)

Lemma iteration_processed_in_tree R U B owner repo p fs rest s :
  finite_tree R U B →
  to_process s = (p, fs) :: rest → queue_in_tree U s →
  processed_paths s ⊆ U →
  processed_paths (snd (iteration R owner repo p rest s)) ⊆ U.
Proof.
  intros Hfin Hq Hin Hsub. unfold iteration. case_decide; [done|].
  destruct (visit R _ _ _ _) as [r s'] eqn:Hv.
  apply visit_effects in Hv as (Hp & _). simpl in *. rewrite Hp.
  assert (p ∈ U) by (apply (Hin (p, fs)); rewrite Hq; apply list_elem_of_here).
  apply union_subseteq. split; [by apply singleton_subseteq_l|done].
Qed.

Lemma while_listed_in_tree R U B h0 owner repo fuel s :
  finite_tree R U B →
  listed_once h0 owner repo s ∧ queue_in_tree U s ∧ processed_paths s ⊆ U →
  let s' := snd (while_to_process R fuel owner repo s) in
  listed_once h0 owner repo s' ∧ queue_in_tree U s' ∧ processed_paths s' ⊆ U.
Proof.
  intros Hfin. cbv zeta.
  apply (while_invariant R
           (λ s, listed_once h0 owner repo s ∧ queue_in_tree U s
                 ∧ processed_paths s ⊆ U)).
  intros p fs rest s0 Hq (Hl & Hin & Hsub). split_and!.
  - by apply iteration_listed_once.
  - by apply (iteration_weight R U B Hfin owner repo p fs rest s0 Hq Hin).
  - by eapply iteration_processed_in_tree.
Qed.

(** X6.  On a finite tree one call sends at most as many listing requests as
    the tree has directory paths, the root included, however often the
    listings repeat an entry or point back to a directory already seen.  This
    holds at every moment of the walk. *)
Theorem listing_requests_bounded_by_tree
    (R : remote) (U : gset string) (B : nat) fuel repo_url w :
  finite_tree R U B →
  ∃ new,
    history (snd (extract_frontend_files R fuel repo_url w)) = history w ++ new
    ∧ (length (filter is_listing new) ≤ size ({[""]} ∪ U))%nat.
Proof.
  intros Hfin. rewrite extract_history.
  destruct (parse_repo_url repo_url) as [[owner repo]|e].
  2:{ exists []. rewrite app_nil_r. split; [done|]. simpl. lia. }
  apply finite_tree_root in Hfin.
  destruct (while_listed_in_tree R ({[""]} ∪ U) B (history w) owner repo fuel
              (initial_state w) Hfin)
    as ((new & paths & Hh & Hnd & Hsub & Hf) & _ & Hproc).
  { split_and!.
    - exists [], []. simpl. rewrite app_nil_r. split_and!; try done.
      + apply NoDup_nil_2.
      + by intros p ?%elem_of_nil.
    - intros x ->%list_elem_of_singleton. simpl. set_solver.
    - simpl. set_solver. }
  exists new. split; [done|]. rewrite Hf, length_fmap.
  rewrite <- (size_list_to_set (C:=gset string) paths Hnd).
  apply subseteq_size. intros p Hp%elem_of_list_to_set. by apply Hproc, Hsub.
Qed.

Lemma listing_requests_bounded_by_tree_witness :
  ∃ new,
    history (snd (extract_frontend_files docs_remote 5
                    "https://github.com/acme/widgets" world0))
    = history world0 ++ new
    ∧ (length (filter is_listing new) ≤ size ({[""]} ∪ ({["docs"]} : gset string)))%nat.
Proof.
  exact (listing_requests_bounded_by_tree docs_remote {["docs"]} 2 5
           "https://github.com/acme/widgets" world0 docs_remote_finite).
Defined.

(** * Strings: extensions and repository URLs *)

Lemma append_String c (s t : string) :
  (String c s ++ t)%string = String c (s ++ t)%string.
Proof. reflexivity. Qed.

Lemma append_EmptyString (t : string) : ("" ++ t)%string = t.
Proof. reflexivity. Qed.

Lemma append_EmptyString_r (s : string) : (s ++ "")%string = s.
Proof. induction s as [|c s IH]; [done|]. rewrite append_String. by rewrite IH. Qed.

Lemma append_length (s t : string) :
  String.length (s ++ t)%string = (String.length s + String.length t)%nat.
Proof.
  induction s as [|c s IH]; [done|]. rewrite append_String. simpl. by rewrite IH.
Qed.

Lemma prefix_nil (s : string) : String.prefix "" s = true.
Proof. by destruct s. Qed.

Lemma prefix_append (m t : string) : String.prefix m (m ++ t)%string = true.
Proof.
  induction m as [|c m IH]; [apply prefix_nil|].
  rewrite append_String. simpl. by destruct (ascii_dec c c).
Qed.

Lemma prefix_other_head c c' (m s : string) :
  c ≠ c' → String.prefix (String c m) (String c' s) = false.
Proof. intros Hne. simpl. by destruct (ascii_dec c c'). Qed.

Lemma contains_char_slash s : contains_char "/" s = false → count_slash s = 0.
Proof.
  induction s as [|c s IH]; [done|]. simpl.
  intros [Hc Hs]%orb_false_elim. rewrite (IH Hs).
  destruct (Ascii.eqb_spec c "/"%char) as [->|_]; [done|lia].
Qed.

Lemma contains_char_dot s : contains_char "." s = false → PyStr.rfind_dot s = None.
Proof.
  induction s as [|c s IH]; [done|]. simpl.
  intros [Hc Hs]%orb_false_elim. rewrite (IH Hs).
  destruct (Ascii.eqb_spec c "."%char) as [->|_]; [done|done].
Qed.

(** Characters that are skipped belong to no piece. *)
Lemma split_from_skip sep (m t : string) :
  PyStr.split_from sep (String.length m) (m ++ t)%string = PyStr.split_from sep 0 t.
Proof.
  induction m as [|c m IH]; [done|]. rewrite append_String. simpl. apply IH.
Qed.

(** A separator at the head closes the empty piece. *)
Lemma split_from_sep c (m t : string) :
  PyStr.split_from (String c m) 0 (String c m ++ t)%string
  = let '(p, ps) := PyStr.split_from (String c m) 0 t in (EmptyString, p :: ps).
Proof.
  rewrite append_String. cbn [PyStr.split_from].
  change (String c (m ++ t))%string with (String c m ++ t)%string.
  rewrite prefix_append.
  replace (String.length (String c m) - 1)%nat with (String.length m)
    by (simpl; lia).
  by rewrite split_from_skip.
Qed.

(** A head without the first character of the separator stays in the first
    piece. *)
Lemma split_from_head c (m pre t : string) :
  contains_char c pre = false →
  PyStr.split_from (String c m) 0 (pre ++ t)%string
  = let '(p, ps) := PyStr.split_from (String c m) 0 t in ((pre ++ p)%string, ps).
Proof.
  induction pre as [|c' pre IH]; intros Hpre.
  - rewrite append_EmptyString. destruct (PyStr.split_from _ 0 t) as [p ps].
    by rewrite append_EmptyString.
  - simpl in Hpre. apply orb_false_elim in Hpre as [Hc Hpre].
    rewrite append_String. cbn [PyStr.split_from].
    rewrite prefix_other_head by (by intros ->; rewrite Ascii.eqb_refl in Hc).
    rewrite (IH Hpre). by destruct (PyStr.split_from _ 0 t).
Qed.

(** Without an occurrence of the separator there is one piece. *)
Lemma split_from_free sep s :
  occurs_free sep s = true → PyStr.split_from sep 0 s = (s, []).
Proof.
  induction s as [|c s IH]; [done|]. cbn [occurs_free PyStr.split_from].
  intros [Hp Hs]%andb_true_iff. apply negb_true_iff in Hp. rewrite Hp.
  by rewrite (IH Hs).
Qed.

Lemma occurs_free_slash s : contains_char "/" s = false → occurs_free "/" s = true.
Proof.
  induction s as [|c s IH]; [done|]. cbn [contains_char occurs_free].
  intros [Hc Hs]%orb_false_elim. rewrite (IH Hs), andb_true_r.
  apply negb_true_iff, prefix_other_head. intros <-.
  by rewrite Ascii.eqb_refl in Hc.
Qed.

Lemma split_no_slash s : contains_char "/" s = false → PyStr.split "/" s = [s].
Proof.
  intros Hs. unfold PyStr.split.
  by rewrite (split_from_free "/" s (occurs_free_slash s Hs)).
Qed.

Lemma split_slash_cons (a t : string) :
  contains_char "/" a = false →
  PyStr.split "/" (a ++ "/" ++ t)%string = a :: PyStr.split "/" t.
Proof.
  intros Ha. unfold PyStr.split.
  rewrite (split_from_head "/" "" a _ Ha), (split_from_sep "/" "" t).
  destruct (PyStr.split_from "/" 0 t) as [p ps].
  by rewrite append_EmptyString_r.
Qed.

Lemma rfind_dot_append (stem ext : string) :
  contains_char "." ext = false →
  PyStr.rfind_dot (stem ++ "." ++ ext)%string = Some (String.length stem).
Proof.
  intros Hext. induction stem as [|c stem IH].
  - change (PyStr.rfind_dot (String "." ext) = Some 0). simpl.
    by rewrite (contains_char_dot ext Hext).
  - rewrite append_String. simpl. by rewrite IH.
Qed.

Lemma substring_all (s : string) : String.substring 0 (String.length s) s = s.
Proof. induction s as [|c s IH]; [done|]. simpl. by rewrite IH. Qed.

Lemma substring_append (a b : string) :
  String.substring (String.length a) (String.length b) (a ++ b)%string = b.
Proof.
  induction a as [|c a IH]; [apply substring_all|]. rewrite append_String. apply IH.
Qed.

Lemma contains_char_append c (a b : string) :
  contains_char c (a ++ b)%string = contains_char c a || contains_char c b.
Proof.
  induction a as [|c' a IH]; [done|]. rewrite append_String. simpl.
  by rewrite IH, orb_assoc.
Qed.

Lemma path_suffix_stem_dot_ext (stem ext : string) :
  stem ≠ EmptyString → ext ≠ EmptyString →
  contains_char "/" stem = false →
  contains_char "/" ext = false →
  contains_char "." ext = false →
  PyStr.path_suffix (stem ++ "." ++ ext)%string = ("." ++ ext)%string.
Proof.
  intros Hstem Hext Hs1 Hs2 Hdot.
  assert (PyStr.path_name (stem ++ "." ++ ext)%string = (stem ++ "." ++ ext)%string)
    as Hname.
  { unfold PyStr.path_name, PyStr.path_parts. rewrite split_no_slash.
    - destruct stem as [|c stem]; [done|]. rewrite append_String. simpl.
      destruct stem as [|c' stem]; [|by destruct (Ascii.eqb c ".")].
      destruct ext as [|c'' ext]; [done|]. simpl. by destruct (Ascii.eqb c ".").
    - rewrite !contains_char_append, Hs1, Hs2. done. }
  unfold PyStr.path_suffix. rewrite Hname, rfind_dot_append by done.
  assert (String.length (stem ++ "." ++ ext)%string
          = (String.length stem + S (String.length ext))%nat) as Hlen
    by (rewrite !append_length; simpl; lia).
  rewrite Hlen.
  assert (Nat.ltb 0 (String.length stem) = true) as ->
    by (apply Nat.ltb_lt; destruct stem; [done|simpl; lia]).
  assert (Nat.ltb (String.length stem)
            (String.length stem + S (String.length ext) - 1) = true) as ->
    by (apply Nat.ltb_lt; destruct ext; [done|simpl; lia]).
  cbn [andb].
  replace (String.length stem + S (String.length ext) - String.length stem)%nat
    with (String.length ("." ++ ext)%string) by (rewrite append_length; simpl; lia).
  apply substring_append.
Qed.

(** X7.  A name [stem.ext], with a stem that is not empty and an [ext]
    that is not empty and has no dot, has the suffix [.ext] (neither part
    holding a slash): of the dots of a name only the last one counts, so
    [a.min.js] is a [.js] file and [app.js.bak] is not. *)
Theorem suffix_of_stem_dot_ext (stem ext : string) :
  stem ≠ EmptyString → ext ≠ EmptyString →
  contains_char "/" stem = false →
  contains_char "/" ext = false →
  contains_char "." ext = false →
  PyStr.path_suffix (stem ++ "." ++ ext)%string = ("." ++ ext)%string.
Proof. apply path_suffix_stem_dot_ext. Qed.

Lemma suffix_of_stem_dot_ext_witness :
  PyStr.path_suffix ("a.min" ++ "." ++ "js")%string = ("." ++ "js")%string.
Proof. by apply suffix_of_stem_dot_ext. Defined.

Lemma path_name_plain (s : string) :
  contains_char "/" s = false →
  PyStr.path_name s = if decide (s = ".") then EmptyString else s.
Proof.
  intros Hs. unfold PyStr.path_name, PyStr.path_parts. rewrite split_no_slash by done.
  cbn [List.filter]. destruct (String.eqb_spec s "") as [->|Hne]; [done|].
  destruct (String.eqb_spec s ".") as [->|Hne']; [done|].
  by rewrite decide_False.
Qed.

Lemma empty_suffix_not_allowed : EmptyString ∉ frontend_extensions.
Proof.
  intros H%list_elem_of_In. simpl in H.
  repeat (destruct H as [H|H]; [discriminate|]). done.
Qed.

(** X8.  A name without any dot (as [Makefile]) and a name whose only dot
    is its first character (as [.gitignore], but also a file called [.py])
    have the empty suffix: such a file entry is passed over without a request,
    a record or a notice. *)
Theorem dotless_and_hidden_names_are_skipped
    (R : remote) (it : item) (s : state) (name rest : string) :
  it !! "type" = Some "file" →
  it !! "name" = Some name →
  contains_char "/" rest = false →
  contains_char "." rest = false →
  name = rest ∨ name = ("." ++ rest)%string →
  PyStr.path_suffix name = EmptyString ∧ process_item R it s = (Ok tt, s).
Proof.
  intros Hty Hn Hslash Hdot Hname.
  assert (PyStr.path_suffix name = EmptyString) as Hsfx.
  { unfold PyStr.path_suffix. destruct Hname as [-> | ->].
    - rewrite path_name_plain by done. case_decide; [done|].
      by rewrite (contains_char_dot rest Hdot).
    - rewrite path_name_plain by (by rewrite contains_char_append, Hslash).
      case_decide; [done|].
      pose proof (rfind_dot_append "" rest Hdot) as Hr.
      rewrite append_EmptyString in Hr. by rewrite Hr. }
  split; [done|]. unfold process_item.
  unfold mbind, M_bind, bind, getitem. rewrite Hty, Hn. unfold ret. cbv beta iota.
  rewrite decide_False by done. rewrite decide_True by done.
  rewrite Hsfx. rewrite decide_False by apply empty_suffix_not_allowed. done.
Qed.

Lemma dotless_and_hidden_names_are_skipped_witness :
  process_item remote_404 (file_item ".py" ".py" "raw/.py") (mkState [] ∅ [] world0)
  = (Ok tt, mkState [] ∅ [] world0).
Proof.
  apply (dotless_and_hidden_names_are_skipped remote_404
           (file_item ".py" ".py" "raw/.py") (mkState [] ∅ [] world0) ".py" "py");
    try done. by right.
Defined.

(** ** Repository URLs *)

Lemma split_marker_last (pre tail : string) :
  contains_char "g" pre = false →
  occurs_free "github.com/" tail = true →
  PyStr.last_piece (PyStr.split "github.com/" (pre ++ "github.com/" ++ tail)%string)
  = tail.
Proof.
  intros Hpre Htail. unfold PyStr.split.
  rewrite (split_from_head "g" "ithub.com/" pre _ Hpre).
  rewrite (split_from_sep "g" "ithub.com/" tail).
  by rewrite (split_from_free _ _ Htail).
Qed.

(** X9.  A URL [... github.com/owner/repo], plain or followed by further
    segments ([/tree/main], a trailing slash), parses to [owner] and [repo]:
    what comes before the marker does not matter (as long as no ['g'] is in
    it, as in [https://] or [https://www.]), and what follows the second
    segment is dropped. *)
Theorem parse_repo_url_owner_repo (pre owner repo_name extra more : string) :
  contains_char "g" pre = false →
  contains_char "/" owner = false →
  contains_char "/" repo_name = false →
  extra = EmptyString ∨ extra = ("/" ++ more)%string →
  occurs_free "github.com/" (owner ++ "/" ++ repo_name ++ extra)%string = true →
  parse_repo_url (pre ++ "github.com/" ++ owner ++ "/" ++ repo_name ++ extra)%string
  = Ok (owner, repo_name).
Proof.
  intros Hpre Ho Hr Hextra Hfree. unfold parse_repo_url, url_parts.
  rewrite (split_marker_last pre _ Hpre Hfree).
  rewrite (split_slash_cons owner _ Ho).
  destruct Hextra as [-> | ->].
  - rewrite append_EmptyString_r, (split_no_slash repo_name Hr). done.
  - rewrite (split_slash_cons repo_name _ Hr). done.
Qed.

Lemma parse_repo_url_owner_repo_witness :
  parse_repo_url ("https://www." ++ "github.com/" ++ "acme" ++ "/" ++ "widgets"
                    ++ "/tree/main")%string
  = Ok ("acme", "widgets").
Proof.
  apply (parse_repo_url_owner_repo "https://www." "acme" "widgets"
           "/tree/main" "tree/main"); try done. by right.
Defined.

(** X10.  The host is not looked at.  A URL that begins with [https://]
    and has no [github.com/] in it parses as well: the owner is the text
    [https:] and the repository name is empty, because the two slashes of the
    scheme are taken for the separators of owner and name. *)
Theorem parse_repo_url_other_host (rest : string) :
  occurs_free "github.com/" ("https://" ++ rest)%string = true →
  parse_repo_url ("https://" ++ rest)%string = Ok ("https:", EmptyString).
Proof.
  intros Hfree.
  assert (url_parts ("https://" ++ rest)%string
          = "https:" :: EmptyString :: PyStr.split "/" rest) as Hparts.
  { unfold url_parts, PyStr.split at 2.
    rewrite (split_from_free _ _ Hfree). cbn [PyStr.last_piece List.last].
    change ("https://" ++ rest)%string
      with ("https:" ++ "/" ++ ("" ++ "/" ++ rest))%string.
    rewrite (split_slash_cons "https:") by done.
    by rewrite (split_slash_cons "") by done. }
  unfold parse_repo_url. by rewrite Hparts.
Qed.

Lemma parse_repo_url_other_host_witness :
  parse_repo_url ("https://" ++ "gitlab.com/acme/widgets")%string
  = Ok ("https:", EmptyString).
Proof. by apply parse_repo_url_other_host. Defined.

(** X11.  [parse_repo_url] raises exactly when the text after the last
    [github.com/] holds no slash, and then it is an [IndexError]; with one
    slash or more it returns the first two pieces, empty ones included. *)
Theorem parse_repo_url_fails_iff (repo_url : string) :
  ((∃ e, parse_repo_url repo_url = Raise e)
   ↔ count_slash (PyStr.last_piece (PyStr.split "github.com/" repo_url)) = 0)
  ∧ (∀ e, parse_repo_url repo_url = Raise e → e = IndexError)
  ∧ (∀ owner repo_name, parse_repo_url repo_url = Ok (owner, repo_name) →
       ∃ others, url_parts repo_url = owner :: repo_name :: others).
Proof.
  pose proof (url_parts_length repo_url) as Hlen. unfold parse_repo_url.
  destruct (url_parts repo_url) as [|a [|b l]]; simpl in *; split_and!.
  - lia.
  - done.
  - done.
  - split; [lia|]. intros _. by eexists.
  - by intros e [= <-].
  - done.
  - split; [by intros [e ?]|lia].
  - done.
  - intros o r [= <- <-]. by exists l.
Qed.

(** * The code block of a model answer *)

Lemma prefix_String_nil c (m : string) : String.prefix (String c m) "" = false.
Proof. reflexivity. Qed.

Lemma prefix_append_r (p x y : string) :
  String.prefix p x = true → String.prefix p (x ++ y)%string = true.
Proof.
  revert x. induction p as [|c p IH]; intros x; [intros _; apply prefix_nil|].
  destruct x as [|c' x]; [done|]. rewrite append_String. simpl.
  destruct (ascii_dec c c'); [apply IH|done].
Qed.

Lemma drop_chars_append (p t : string) :
  drop_chars (String.length p) (p ++ t)%string = t.
Proof. induction p as [|c p IH]; [done|]. rewrite append_String. apply IH. Qed.

Lemma prefix_drop_chars (p s : string) :
  String.prefix p s = true → s = (p ++ drop_chars (String.length p) s)%string.
Proof.
  revert s. induction p as [|c p IH]; intros s; [done|].
  destruct s as [|c' s]; [done|]. simpl.
  destruct (ascii_dec c c') as [<-|]; [|done].
  intros Hp. rewrite append_String. by rewrite <- (IH s Hp).
Qed.

(** What [find_first] finds is an occurrence. *)
Lemma find_first_occurrence pat s before after :
  find_first pat s = Some (before, after) →
  s = (before ++ pat ++ after)%string.
Proof.
  revert before. induction s as [|c s IH]; intros before; cbn [find_first].
  - destruct (String.prefix pat "") eqn:Hp; [|done].
    intros [= <- <-]. rewrite append_EmptyString. by apply prefix_drop_chars.
  - destruct (String.prefix pat (String c s)) eqn:Hp.
    + intros [= <- <-]. rewrite append_EmptyString. by apply prefix_drop_chars.
    + destruct (find_first pat s) as [[b a]|]; [|done].
      intros [= <- <-]. rewrite append_String. by rewrite <- (IH b eq_refl).
Qed.

(** It is the leftmost one: the text before it holds none. *)
Lemma find_first_leftmost c m s before after :
  find_first (String c m) s = Some (before, after) →
  occurs_free (String c m) before = true.
Proof.
  revert before. induction s as [|c' s IH]; intros before; cbn [find_first].
  - by rewrite prefix_String_nil.
  - destruct (String.prefix (String c m) (String c' s)) eqn:Hp.
    + by intros [= <- <-].
    + destruct (find_first (String c m) s) as [[b a]|] eqn:Hf; [|done].
      intros [= <- <-]. cbn [occurs_free]. rewrite (IH b eq_refl), andb_true_r.
      apply negb_true_iff. destruct (String.prefix _ (String c' b)) eqn:Hpb; [|done].
      apply (prefix_append_r _ _ (String c m ++ a)) in Hpb.
      rewrite append_String, <- (find_first_occurrence _ _ _ _ Hf) in Hpb. congruence.
Qed.

Lemma find_first_free pat s : occurs_free pat s = true → find_first pat s = None.
Proof.
  induction s as [|c s IH]; cbn [occurs_free find_first].
  - intros [Hp _]%andb_true_iff. apply negb_true_iff in Hp. by rewrite Hp.
  - intros [Hp Hs]%andb_true_iff. apply negb_true_iff in Hp.
    by rewrite Hp, (IH Hs).
Qed.

Lemma occurs_free_suffix pat (x y : string) :
  occurs_free pat (x ++ y)%string = true → occurs_free pat y = true.
Proof.
  induction x as [|c x IH]; [done|]. rewrite append_String. cbn [occurs_free].
  intros [_ H]%andb_true_iff. by apply IH.
Qed.

Lemma find_first_head c (m pre t : string) :
  contains_char c pre = false →
  find_first (String c m) (pre ++ String c m ++ t)%string = Some (pre, t).
Proof.
  induction pre as [|c' pre IH]; intros Hpre.
  - rewrite append_EmptyString.
    assert (∀ s, String.prefix (String c m) s = true →
              find_first (String c m) s
              = Some (EmptyString, drop_chars (String.length (String c m)) s)) as Hhit.
    { intros s Hs. destruct s; cbn [find_first]; by rewrite Hs. }
    rewrite Hhit by apply prefix_append. by rewrite drop_chars_append.
  - cbn [contains_char] in Hpre. apply orb_false_elim in Hpre as [Hc Hpre].
    rewrite append_String. cbn [find_first].
    rewrite prefix_other_head by (by intros ->; rewrite Ascii.eqb_refl in Hc).
    by rewrite (IH Hpre).
Qed.

Lemma fence_open_head : fence_open = String "`"%char ("``python" ++ line_feed)%string.
Proof. reflexivity. Qed.

Lemma fence_close_head : fence_close = String "010"%char "```".
Proof. reflexivity. Qed.

(** A text without backticks holds no closing fence, and none begins in it
    when a closing fence follows. *)
Lemma find_first_close (code post : string) :
  contains_char "`" code = false →
  find_first fence_close (code ++ fence_close ++ post)%string = Some (code, post).
Proof.
  induction code as [|c code IH]; intros Hcode.
  - rewrite append_EmptyString.
    assert (String.prefix fence_close (fence_close ++ post)%string = true) as Hp
      by apply prefix_append.
    assert (find_first fence_close (fence_close ++ post)%string
            = Some (EmptyString,
                    drop_chars (String.length fence_close) (fence_close ++ post)%string))
      as -> by (rewrite fence_close_head, append_String in *; cbn [find_first];
                by rewrite Hp).
    by rewrite drop_chars_append.
  - cbn [contains_char] in Hcode. apply orb_false_elim in Hcode as [Hc Hcode].
    rewrite append_String. cbn [find_first]. rewrite (IH Hcode).
    assert (String.prefix fence_close
              (String c (code ++ fence_close ++ post)%string) = false) as ->; [|done].
    rewrite fence_close_head. cbn [String.prefix].
    destruct (ascii_dec "010" c) as [_|_]; [|done].
    destruct code as [|c2 code].
    + rewrite append_EmptyString, append_String. by cbn.
    + rewrite append_String. cbn [String.prefix contains_char] in *.
      apply orb_false_elim in Hcode as [Hc2 _].
      destruct (ascii_dec "`" c2) as [<-|_]; [|done].
      by rewrite Ascii.eqb_refl in Hc2.
Qed.

Lemma extract_code_no_fence (content : string) :
  occurs_free fence_open content = true ∨ occurs_free fence_close content = true →
  extract_code content = content.
Proof.
  unfold extract_code. intros [Hopen|Hclose].
  - by rewrite (find_first_free _ _ Hopen).
  - destruct (find_first fence_open content) as [[before after]|] eqn:Hf; [|done].
    apply find_first_occurrence in Hf. rewrite Hf in Hclose.
    do 2 apply occurs_free_suffix in Hclose.
    by rewrite (find_first_free _ _ Hclose).
Qed.

Lemma extract_code_cases (content : string) :
  extract_code content = content
  ∨ ∃ pre post,
      content = (pre ++ fence_open ++ extract_code content ++ fence_close ++ post)%string
      ∧ occurs_free fence_open pre = true
      ∧ occurs_free fence_close (extract_code content) = true.
Proof.
  unfold extract_code.
  destruct (find_first fence_open content) as [[pre after]|] eqn:Hopen; [|by left].
  destruct (find_first fence_close after) as [[code post]|] eqn:Hclose; [|by left].
  right. exists pre, post. split_and!.
  - apply find_first_occurrence in Hopen, Hclose. by rewrite Hopen, Hclose.
  - rewrite fence_open_head in *. by eapply find_first_leftmost.
  - rewrite fence_close_head in *. by eapply find_first_leftmost.
Qed.

(** X12.  A content without an opening fence, or without a closing fence
    anywhere, is returned unchanged: [extract_code] never cuts an answer
    that has no complete fenced block. *)
Theorem extract_code_without_fence (content : string) :
  occurs_free fence_open content = true ∨ occurs_free fence_close content = true →
  extract_code content = content.
Proof. apply extract_code_no_fence. Qed.

Lemma extract_code_without_fence_witness :
  extract_code "import streamlit as st" = "import streamlit as st".
Proof. apply extract_code_without_fence. left. by vm_compute. Defined.

(** X13.  From an answer that wraps the code in a python fence,
    [extract_code] returns the code, whatever follows the closing fence;
    the text before the fence and the code hold no backtick. *)
Theorem extract_code_of_fenced_block (pre code post : string) :
  contains_char "`" pre = false →
  contains_char "`" code = false →
  extract_code (pre ++ fence_open ++ code ++ fence_close ++ post)%string = code.
Proof.
  intros Hpre Hcode. unfold extract_code.
  rewrite fence_open_head at 1 2.
  rewrite (find_first_head "`" _ pre _ Hpre).
  by rewrite (find_first_close code post Hcode).
Qed.

Lemma extract_code_of_fenced_block_witness :
  extract_code ("Here is the UI:" ++ fence_open ++ "import streamlit as st"
                  ++ fence_close ++ " Run it with `streamlit run`.")%string
  = "import streamlit as st".
Proof. by apply extract_code_of_fenced_block. Defined.

(** X14.  What [extract_code] returns is the content itself, or the text
    between the leftmost opening fence and the first closing fence after it:
    no opening fence lies before the block, and the code returned holds no
    closing fence. *)
Theorem extract_code_returns_whole_or_first_block (content : string) :
  extract_code content = content
  ∨ ∃ pre post,
      content = (pre ++ fence_open ++ extract_code content ++ fence_close ++ post)%string
      ∧ occurs_free fence_open pre = true
      ∧ occurs_free fence_close (extract_code content) = true.
Proof. apply extract_code_cases. Qed.

(** X15.  [extract_code] is idempotent: the code it took out of an answer is
    left as it is by a second pass. *)
Theorem extract_code_idempotent (content : string) :
  extract_code (extract_code content) = extract_code content.
Proof.
  destruct (extract_code_cases content) as [Heq|(pre & post & _ & _ & Hfree)].
  - rewrite Heq. exact Heq.
  - apply extract_code_no_fence. by right.
Qed.

(** * The repository information *)

Section RepoInfoProperties.

Variable V : Type.
Variable R : RepoInfo.remote V.

Lemma get_repo_info_cases repo_url w :
  (∃ owner repo_name resp o v,
     parse_repo_url repo_url = Ok (owner, repo_name)
     ∧ R (RepoInfo.history V w) (info_request owner repo_name) = inr resp
     ∧ RepoInfo.status_code V resp = 200%Z
     ∧ RepoInfo.json V resp = Some (RepoInfo.Object V o)
     ∧ o !! "name" = Some v
     ∧ RepoInfo.get_repo_info V R repo_url w
       = (Some (RepoInfo.mkInfo V (RepoInfo.FromJson V v)
                  (RepoInfo.dict_get V o "description" (RepoInfo.PyStr V ""))
                  (RepoInfo.dict_get V o "language" (RepoInfo.PyStr V ""))
                  (RepoInfo.dict_get V o "stargazers_count" (RepoInfo.PyInt V 0))
                  (RepoInfo.dict_get V o "forks_count" (RepoInfo.PyInt V 0))),
          RepoInfo.mkWorld V (RepoInfo.log V w)
            (RepoInfo.history V w ++ [info_request owner repo_name])))
  ∨ (∃ ev sent,
       RepoInfo.get_repo_info V R repo_url w
       = (None, RepoInfo.mkWorld V (RepoInfo.log V w ++ [ev])
                  (RepoInfo.history V w ++ sent))
       ∧ sent = match parse_repo_url repo_url with
                | Ok (owner, repo_name) => [info_request owner repo_name]
                | Raise _ => []
                end
       ∧ ¬ (∃ owner repo_name resp o,
              parse_repo_url repo_url = Ok (owner, repo_name)
              ∧ R (RepoInfo.history V w) (info_request owner repo_name) = inr resp
              ∧ RepoInfo.status_code V resp = 200%Z
              ∧ RepoInfo.json V resp = Some (RepoInfo.Object V o)
              ∧ is_Some (o !! "name"))).
Proof.
  unfold RepoInfo.get_repo_info, RepoInfo.get_repo_info_body.
  destruct (parse_repo_url repo_url) as [[owner repo_name]|e] eqn:Hparse.
  2:{ right. eexists _, []. rewrite app_nil_r. split_and!; [done..|].
      by intros (? & ? & ? & ? & ? & _). }
  fold (info_request owner repo_name).
  destruct (R _ _) as [e|resp] eqn:HR.
  { right. eexists _, _. split_and!; [done..|].
    intros (? & ? & ? & ? & [= <- <-] & ? & _). congruence. }
  case_decide as Hst.
  - destruct (RepoInfo.json V resp) as [[o|]|] eqn:Hj.
    + destruct (o !! "name") as [v|] eqn:Hn.
      * left. by exists owner, repo_name, resp, o, v.
      * right. eexists _, _. split_and!; [done..|].
        intros (? & ? & ? & ? & [= <- <-] & ? & ? & ? & [? ?]). congruence.
    + right. eexists _, _. split_and!; [done..|].
      intros (? & ? & ? & ? & [= <- <-] & ? & ? & ? & _). congruence.
    + right. eexists _, _. split_and!; [done..|].
      intros (? & ? & ? & ? & [= <- <-] & ? & ? & ? & _). congruence.
  - assert (¬ (∃ owner0 repo_name0 resp0 o,
              Ok (owner, repo_name) = Ok (owner0, repo_name0)
              ∧ R (RepoInfo.history V w) (info_request owner0 repo_name0) = inr resp0
              ∧ RepoInfo.status_code V resp0 = 200%Z
              ∧ RepoInfo.json V resp0 = Some (RepoInfo.Object V o)
              ∧ is_Some (o !! "name"))) as Hno.
    { intros (? & ? & ? & ? & [= <- <-] & ? & ? & _). congruence. }
    right. destruct (RepoInfo.json V resp) as [[o|]|]; simpl;
      eexists _, _; split_and!; done.
Qed.

(** X16.  [get_repo_info] returns a dict exactly when the URL parses, the
    answer has status 200 and its body is a JSON object with the key
    ['name']; the dict then holds that name and, for each of the other four
    keys, the value of the object, or ['']/[0] when the object lacks the
    key. *)
Theorem get_repo_info_returns_info_iff (repo_url : string) (w : RepoInfo.world V)
    (i : RepoInfo.info V) :
  fst (RepoInfo.get_repo_info V R repo_url w) = Some i
  ↔ ∃ owner repo_name resp o v,
      parse_repo_url repo_url = Ok (owner, repo_name)
      ∧ R (RepoInfo.history V w) (info_request owner repo_name) = inr resp
      ∧ RepoInfo.status_code V resp = 200%Z
      ∧ RepoInfo.json V resp = Some (RepoInfo.Object V o)
      ∧ o !! "name" = Some v
      ∧ i = RepoInfo.mkInfo V (RepoInfo.FromJson V v)
              (RepoInfo.dict_get V o "description" (RepoInfo.PyStr V ""))
              (RepoInfo.dict_get V o "language" (RepoInfo.PyStr V ""))
              (RepoInfo.dict_get V o "stargazers_count" (RepoInfo.PyInt V 0))
              (RepoInfo.dict_get V o "forks_count" (RepoInfo.PyInt V 0)).
Proof.
  destruct (get_repo_info_cases repo_url w)
    as [(owner & repo_name & resp & o & v & Hp & HR & Hst & Hj & Hn & Heq)
       |(ev & sent & Heq & _ & Hno)]; rewrite Heq; simpl; split.
  - intros [= <-]. by exists owner, repo_name, resp, o, v.
  - intros (o' & r' & resp' & ob' & v' & Hp' & HR' & _ & Hj' & Hn' & ->).
    rewrite Hp in Hp'. injection Hp' as <- <-. rewrite HR in HR'.
    injection HR' as <-. rewrite Hj in Hj'. injection Hj' as <-.
    rewrite Hn in Hn'. by injection Hn' as <-.
  - done.
  - intros (o' & r' & resp' & ob' & v' & Hp' & HR' & Hst' & Hj' & Hn' & _).
    destruct Hno. exists o', r', resp', ob'. by split_and!.
Qed.

(** X17.  [get_repo_info] sends nothing when the URL does not parse and
    otherwise exactly one request, the one for [/repos/owner/repo]; when it
    returns [None] it has called [st.error] exactly once, and when it
    returns a dict it has called it not at all. *)
Theorem get_repo_info_one_request_one_notice (repo_url : string) (w : RepoInfo.world V) :
  RepoInfo.history V (snd (RepoInfo.get_repo_info V R repo_url w))
  = RepoInfo.history V w
    ++ match parse_repo_url repo_url with
       | Ok (owner, repo_name) => [info_request owner repo_name]
       | Raise _ => []
       end
  ∧ match fst (RepoInfo.get_repo_info V R repo_url w) with
    | Some _ =>
        RepoInfo.log V (snd (RepoInfo.get_repo_info V R repo_url w)) = RepoInfo.log V w
    | None =>
        ∃ ev, RepoInfo.log V (snd (RepoInfo.get_repo_info V R repo_url w))
              = RepoInfo.log V w ++ [ev]
    end.
Proof.
  destruct (get_repo_info_cases repo_url w)
    as [(owner & repo_name & resp & o & v & Hp & HR & Hst & Hj & Hn & Heq)
       |(ev & sent & Heq & Hsent & Hno)]; rewrite Heq; simpl.
  - by rewrite Hp.
  - rewrite <- Hsent. split; [done|]. by exists ev.
Qed.

End RepoInfoProperties.

Lemma get_repo_info_returns_info_iff_witness :
  fst (RepoInfo.get_repo_info Z info_remote_name_only
         "https://github.com/acme/widgets" (RepoInfo.mkWorld Z [] []))
  = Some (RepoInfo.mkInfo Z (RepoInfo.FromJson Z 7%Z) (RepoInfo.PyStr Z "")
            (RepoInfo.PyStr Z "") (RepoInfo.PyInt Z 0) (RepoInfo.PyInt Z 0)).
Proof.
  apply (get_repo_info_returns_info_iff Z info_remote_name_only).
  exists "acme", "widgets",
    (RepoInfo.mkResponse Z 200 (Some (RepoInfo.Object Z {["name" := 7%Z]}))),
    {["name" := 7%Z]}, 7%Z.
  split_and!; by vm_compute.
Defined.

(** * The two fetches *)

(** X18.  [get_repo_contents] returns the JSON of the answer exactly when
    the status is 200 and the body is JSON; with another status it raises
    whatever the body says, with the API's message when the body is an
    object ([Unknown error] when the object has none).  In every case it sent
    the one listing request and logged nothing. *)
Theorem get_repo_contents_returns_iff
    (R : remote) (owner repo p : string) (w : world) (j : json) :
  (fst (get_repo_contents R owner repo p w) = Ok j
   ↔ ∃ resp, R (history w) (listing_request owner repo p) = inr resp
             ∧ status_code resp = 200%Z ∧ json_body resp = Some j)
  ∧ (∀ resp o, R (history w) (listing_request owner repo p) = inr resp →
       status_code resp ≠ 200%Z → json_body resp = Some (JObject o) →
       fst (get_repo_contents R owner repo p w)
       = Raise (GitHubAPIError (default "Unknown error" (o !! "message"))))
  ∧ snd (get_repo_contents R owner repo p w)
    = mkWorld (log w) (history w ++ [listing_request owner repo p]).
Proof.
  split_and!.
  - split.
    + destruct (get_repo_contents R owner repo p w) as [r w'] eqn:Hget.
      simpl. intros ->. by eapply get_repo_contents_ok.
    + intros (resp & HR & Hst & Hj).
      unfold get_repo_contents, requests_get, response_json. unfold_M.
      fold (listing_request owner repo p). rewrite HR.
      rewrite decide_False by (by intros ?). by rewrite Hj.
  - intros resp o HR Hst Hj.
    unfold get_repo_contents, requests_get, response_json. unfold_M.
    fold (listing_request owner repo p). rewrite HR.
    rewrite decide_True by done. by rewrite Hj.
  - apply get_repo_contents_world.
Qed.

Lemma get_repo_contents_returns_iff_witness :
  fst (get_repo_contents
         (fun _ _ => inr (mkResponse 403 (Some (JObject {["message" := "rate limit"]})) ""))
         "acme" "widgets" "" world0)
  = Raise (GitHubAPIError "rate limit").
Proof.
  rewrite (proj1 (proj2 (get_repo_contents_returns_iff
           (fun _ _ => inr (mkResponse 403 (Some (JObject {["message" := "rate limit"]})) ""))
           "acme" "widgets" "" world0 (JArray [])))
           (mkResponse 403 (Some (JObject {["message" := "rate limit"]})) "")
           {["message" := "rate limit"]}) by (by vm_compute).
  by vm_compute.
Defined.

(** X19.  [get_file_content] returns the text of the answer exactly when
    the status is 200; with another status it raises the error that carries
    that status.  In every case it sent the one request for the URL, without
    headers, and logged nothing. *)
Theorem get_file_content_returns_iff
    (R : remote) (download_url : string) (w : world) (c : string) :
  (fst (get_file_content R download_url w) = Ok c
   ↔ ∃ resp, R (history w) (mkRequest download_url []) = inr resp
             ∧ status_code resp = 200%Z ∧ c = text resp)
  ∧ (∀ resp, R (history w) (mkRequest download_url []) = inr resp →
       status_code resp ≠ 200%Z →
       fst (get_file_content R download_url w)
       = Raise (FetchContentError (status_code resp)))
  ∧ snd (get_file_content R download_url w)
    = mkWorld (log w) (history w ++ [mkRequest download_url []]).
Proof.
  split_and!.
  - split.
    + destruct (get_file_content R download_url w) as [r w'] eqn:Hget.
      simpl. intros ->. by eapply get_file_content_ok.
    + intros (resp & HR & Hst & ->).
      by rewrite (get_file_content_success R download_url w resp HR Hst).
  - intros resp HR Hst. unfold get_file_content, requests_get. unfold_M.
    rewrite HR. by rewrite decide_True by done.
  - apply get_file_content_world.
Qed.

Lemma get_file_content_returns_iff_witness :
  fst (get_file_content remote_404 raw_app_js world0) = Raise (FetchContentError 404).
Proof.
  apply (proj1 (proj2 (get_file_content_returns_iff remote_404 raw_app_js world0 ""))
           (mkResponse 404 None "")); by vm_compute.
Defined.

(** * One record for each matching entry *)















